(** * object-diff: a shallow embedding of the recursive diff engine

    Sources: [src/src/index.ts] ([internalDiff], [compareObjects], [diff])
    and [src/src/utils/comparison.ts] ([shouldIgnoreProperty],
    [comparePrimitives], [compareArrays], [isPlainObject], [coerceValues]).

    Modelling choices.
    - JS values are trees.  Objects, arrays, dates and the other opaque
      objects (RegExp, Map, Set) carry a location: [===] on objects is
      reference equality, so two structurally equal objects with distinct
      locations are distinct references.
    - Numbers are NaN, the two infinities, or a finite rational (every finite
      double is one).  [===] on numbers is numeric equality: NaN is unequal
      to everything, -0 and +0 are the same rational.
    - The JS runtime conversions the code calls ([Number(s)],
      [String(n)] used by [Array.prototype.sort], [new Date(s).getTime()])
      are parameters of the development: every theorem holds for every
      choice of them, unless it states what it needs of them.
    - Inputs are JSON-like data objects: [key in obj] is read as an own-key
      test, which it is for keys that do not name a member of
      [Object.prototype].  The keys of one object are distinct, so
      [obj[key]] for a key of [Object.keys(obj)] is that field's value.
    - The only operation of the engine that can throw is
      [Object.keys(x)] on [null]/[undefined]; it is modelled in an error
      monad, everything else is total. *)

From Stdlib Require Import Bool Arith NArith List String Ascii QArith Lia.
From Stdlib Require Import Permutation Sorted.
From Stdlib Require DecimalString DecimalNat.
Import ListNotations.
Set Warnings "-register-all".
Open Scope string_scope.
Open Scope list_scope.

(** ** JS numbers *)

Inductive number : Type :=
| NaN
| Infinity (negative : bool)
| Fin (q : Q).

(** [isNaN(n)] *)
Definition isNaN (n : number) : bool :=
  match n with NaN => true | _ => false end.

(** [n === m] on numbers *)
Definition num_eqb (n m : number) : bool :=
  match n, m with
  | Fin p, Fin q => Qeq_bool p q
  | Infinity s1, Infinity s2 => Bool.eqb s1 s2
  | _, _ => false
  end.

(** [d < n] for the integer depth counter [d] and a number [n] *)
Definition depth_lt (d : nat) (n : number) : bool :=
  match n with
  | NaN => false
  | Infinity neg => negb neg
  | Fin q => negb (Qle_bool q (inject_Z (Z.of_nat d)))
  end.

(** ** JS values *)

Abbreviation loc := nat (only parsing).

Inductive value : Type :=
| VUndefined
| VNull
| VBool (b : bool)
| VNum (n : number)
| VStr (s : string)
| VDate (l : loc) (time : number)           (* a Date object *)
| VOther (l : loc)                          (* RegExp, Map, Set *)
| VArr (l : loc) (xs : list value)
| VObj (l : loc) (fs : list (string * value)).

(** [typeof v] *)
Inductive jstype := TUndefined | TObject | TBoolean | TNumber | TString.

Definition typeof (v : value) : jstype :=
  match v with
  | VUndefined => TUndefined
  | VBool _ => TBoolean
  | VNum _ => TNumber
  | VStr _ => TString
  | VNull | VDate _ _ | VOther _ | VArr _ _ | VObj _ _ => TObject
  end.

Definition jstype_eqb (t u : jstype) : bool :=
  match t, u with
  | TUndefined, TUndefined | TObject, TObject | TBoolean, TBoolean
  | TNumber, TNumber | TString, TString => true
  | _, _ => false
  end.

(** [v == null] *)
Definition is_nullish (v : value) : bool :=
  match v with VUndefined | VNull => true | _ => false end.

Definition ref_of (v : value) : option loc :=
  match v with
  | VDate l _ | VOther l | VArr l _ | VObj l _ => Some l
  | _ => None
  end.

(** [a === b] *)
Definition strict_eq (a b : value) : bool :=
  match a, b with
  | VUndefined, VUndefined | VNull, VNull => true
  | VBool x, VBool y => Bool.eqb x y
  | VNum x, VNum y => num_eqb x y
  | VStr x, VStr y => String.eqb x y
  | _, _ =>
      match ref_of a, ref_of b with
      | Some l1, Some l2 => Nat.eqb l1 l2
      | _, _ => false
      end
  end.

(** [Array.isArray(v)] *)
Definition isArray (v : value) : bool :=
  match v with VArr _ _ => true | _ => false end.

(** [isPlainObject(v)]: non-null, of type object, not an array, not a
    Date, RegExp, Map or Set. *)
Definition isPlainObject (v : value) : bool :=
  match v with VObj _ _ => true | _ => false end.

(** [JSON-like truthiness] of an option field of the merged options:
    [undefined] is falsy. *)
Definition truthy (b : option bool) : bool :=
  match b with Some true => true | _ => false end.

(** ** Errors *)

Inductive except (A : Type) : Type :=
| Ok (a : A)
| Throw (e : string).
Arguments Ok {A} a.
Arguments Throw {A} e.

Notation "'let!' x ':=' m 'in' k" :=
  (match m with Ok x => k | Throw e => Throw e end)
  (at level 200, x name, m at level 100, k at level 200).

(** ** The JS runtime conversions used by the code *)

Class JSRuntime := {
  (** [Number(s)] for a string [s] *)
  Number_of_string : string -> number;
  (** [String(n)] for a number [n] (the key of the default sort order) *)
  String_of_number : number -> string;
  (** [new Date(s).getTime()] for a string [s] *)
  Date_parse : string -> number
}.

Section Engine.
Context {rt : JSRuntime}.

(** [s.toLowerCase()] on the code units of a string (ASCII and Latin-1
    upper-case letters; no other code unit below 256 changes). *)
Definition lower_char (c : ascii) : ascii :=
  let n := nat_of_ascii c in
  (* code units 65-90 and 192-222 except 215 are the upper-case letters *)
  (if ((65 <=? n) && (n <=? 90)) || ((192 <=? n) && (n <=? 222) && negb (n =? 215))
  then ascii_of_nat (n + 32) else c)%nat.

Fixpoint toLowerCase (s : string) : string :=
  match s with
  | EmptyString => EmptyString
  | String c s' => String (lower_char c) (toLowerCase s')
  end.

(** ** [coerceValues] (comparison.ts, lines 268-371)

    Only the [areEqual] field is read by the engine ([comparePrimitives]);
    the coerced values it also returns are not modelled.  Each [if] block
    that may fall through is an [option bool]: [None] falls through to the
    next block. *)

Definition coerce_number_string (a b : value) : option bool :=
  match a, b with
  | VNum n, VStr s =>
      let coercedB := Number_of_string s in
      if negb (isNaN coercedB) then Some (num_eqb n coercedB) else None
  | _, _ => None
  end.

Definition coerce_string_number (a b : value) : option bool :=
  match a, b with
  | VStr s, VNum n =>
      let coercedA := Number_of_string s in
      if negb (isNaN coercedA) then Some (num_eqb coercedA n) else None
  | _, _ => None
  end.

Definition coerce_boolean_string (a b : value) : option bool :=
  match a, b with
  | VBool x, VStr s =>
      let coercedB := toLowerCase s in
      if (coercedB =? "true") || (coercedB =? "false")
      then Some (Bool.eqb x (coercedB =? "true")) else None
  | _, _ => None
  end.

Definition coerce_string_boolean (a b : value) : option bool :=
  match a, b with
  | VStr s, VBool x =>
      let coercedA := toLowerCase s in
      if (coercedA =? "true") || (coercedA =? "false")
      then Some (Bool.eqb (coercedA =? "true") x) else None
  | _, _ => None
  end.

Definition coerce_date_string (a b : value) : option bool :=
  match a, b with
  | VDate _ t, VStr s =>
      let coercedB := Date_parse s in
      if negb (isNaN coercedB) then Some (num_eqb t coercedB) else None
  | _, _ => None
  end.

Definition coerce_string_date (a b : value) : option bool :=
  match a, b with
  | VStr s, VDate _ t =>
      let coercedA := Date_parse s in
      if negb (isNaN coercedA) then Some (num_eqb coercedA t) else None
  | _, _ => None
  end.

Definition bool_to_number (x : bool) : number :=
  Fin (if x then 1 else 0)%Q.

Definition coerce_number_boolean (a b : value) : option bool :=
  match a, b with
  | VNum n, VBool x => Some (num_eqb n (bool_to_number x))
  | _, _ => None
  end.

Definition coerce_boolean_number (a b : value) : option bool :=
  match a, b with
  | VBool x, VNum n => Some (num_eqb (bool_to_number x) n)
  | _, _ => None
  end.

Definition or_else (o : option bool) (k : bool) : bool :=
  match o with Some r => r | None => k end.

Definition coerceValues (a b : value) : bool :=
  if is_nullish a && is_nullish b then true
  else if is_nullish a || is_nullish b then false
  else if jstype_eqb (typeof a) (typeof b) then strict_eq a b
  else
    or_else (coerce_number_string a b) (
    or_else (coerce_string_number a b) (
    or_else (coerce_boolean_string a b) (
    or_else (coerce_string_boolean a b) (
    or_else (coerce_date_string a b) (
    or_else (coerce_string_date a b) (
    or_else (coerce_number_boolean a b) (
    or_else (coerce_boolean_number a b)
    false))))))).

(** ** [comparePrimitives] (comparison.ts, lines 47-65) *)
Definition comparePrimitives (a b : value) (enableTypeCoercion : bool) : bool :=
  if strict_eq a b then true
  else if negb enableTypeCoercion then false
  else coerceValues a b.


(** ** [shouldIgnoreProperty] (comparison.ts, lines 10-42) *)

(** The regular expression built for a pattern with [*]: every regex
    metacharacter except [*] is escaped and [*] becomes [.*], anchored at
    both ends.  It therefore matches literally, with [*] standing for any
    run of characters that are not line terminators ([.] does not match
    [\n] or [\r]). *)
Definition is_line_terminator (c : ascii) : bool :=
  (nat_of_ascii c =? 10)%nat || (nat_of_ascii c =? 13)%nat.

Fixpoint glob_match (p s : string) {struct p} : bool :=
  match p with
  | EmptyString => match s with EmptyString => true | _ => false end
  | String c p' =>
      if Ascii.eqb c "*" then
        (fix star (s : string) : bool :=
           glob_match p' s ||
           match s with
           | EmptyString => false
           | String c' s' => negb (is_line_terminator c') && star s'
           end) s
      else
        match s with
        | EmptyString => false
        | String c' s' => Ascii.eqb c c' && glob_match p' s'
        end
  end.

(** [s.includes(c)] for a one-character [c] *)
Fixpoint includes_char (c : ascii) (s : string) : bool :=
  match s with
  | EmptyString => false
  | String c' s' => Ascii.eqb c c' || includes_char c s'
  end.

(** The callback of [ignoreProperties.some(...)] *)
Definition matches_ignore_path (propertyPath ignorePath : string) : bool :=
  if ignorePath =? propertyPath then true
  else if includes_char "*" ignorePath then glob_match ignorePath propertyPath
  else if includes_char "." ignorePath
  then String.prefix (ignorePath ++ ".")%string propertyPath
  else propertyPath =? ignorePath.

(** [ignoreProperties] is the merged option: [None] is [undefined]. *)
Definition shouldIgnoreProperty (propertyPath : string)
    (ignoreProperties : option (list string)) : bool :=
  match ignoreProperties with
  | None | Some [] => false
  | Some ips => existsb (matches_ignore_path propertyPath) ips
  end.

(** ** Options, context and results ([types.ts]) *)

(** [Required<DiffOptions>] after the merge [{...DEFAULT_OPTIONS, ...options}]:
    a field the caller set to [undefined] stays [undefined] ([None]). *)
Record Options := mkOptions {
  ignoreProperties : option (list string);
  enableTypeCoercion : option bool;
  arrayOrderMatters : option bool;
  maxDepth : option number
}.

Record ComparisonContext := mkCtx {
  path : list string;
  depth : nat;
  options : Options
}.

(** [context.depth < context.options.maxDepth] *)
Definition below_maxDepth (c : ComparisonContext) : bool :=
  match maxDepth (options c) with
  | None => false
  | Some n => depth_lt (depth c) n
  end.

Definition coercion (c : ComparisonContext) : bool :=
  truthy (enableTypeCoercion (options c)).

(** [context.path.length > 0 ? `${context.path.join('.')}.${key}` : key] *)
Definition currentPath (c : ComparisonContext) (key : string) : string :=
  match path c with
  | [] => key
  | p => (String.concat "." p ++ "." ++ key)%string
  end.

(** What the result objects hold: a value of the inputs (stored by
    reference), an update record [{from, to}], or a result map built by
    [compareObjects]. *)
Inductive out : Type :=
| OVal (v : value)
| OFromTo (from to : value)
| OMap (m : list (string * out)).

Record DiffResult := mkResult {
  additions : out;
  deletions : out;
  updates : out
}.

(** [{ additions: {}, deletions: {}, updates: {} }] *)
Definition empty_result : DiffResult := mkResult (OMap []) (OMap []) (OMap []).

Definition set_additions (r : DiffResult) (o : out) : DiffResult :=
  mkResult o (deletions r) (updates r).
Definition set_deletions (r : DiffResult) (o : out) : DiffResult :=
  mkResult (additions r) o (updates r).
Definition set_updates (r : DiffResult) (o : out) : DiffResult :=
  mkResult (additions r) (deletions r) o.

(** [m[key] = v] on a result map: an existing key keeps its place, a new
    key is appended. *)
Fixpoint map_set (m : list (string * out)) (key : string) (v : out)
    : list (string * out) :=
  match m with
  | [] => [(key, v)]
  | (k, w) :: m' => if k =? key then (k, v) :: m' else (k, w) :: map_set m' key v
  end.

(** [key in obj] *)
Definition has_key {A} (fs : list (string * A)) (key : string) : bool :=
  existsb (fun kv => fst kv =? key) fs.

(** [obj[key]] for a key of the object *)
Fixpoint lookup {A} (fs : list (string * A)) (key : string) : option A :=
  match fs with
  | [] => None
  | (k, v) :: fs' => if k =? key then Some v else lookup fs' key
  end.

(** [Object.keys(v).length > 0]; [Object.keys] throws on [null] and
    [undefined]. *)
Definition value_has_keys (v : value) : except bool :=
  match v with
  | VUndefined | VNull => Throw "TypeError: Cannot convert undefined or null to object"
  | VObj _ fs => Ok (negb (match fs with [] => true | _ => false end))
  | VArr _ xs => Ok (negb (match xs with [] => true | _ => false end))
  | VStr s => Ok (negb (String.length s =? 0)%nat)
  | VBool _ | VNum _ | VDate _ _ | VOther _ => Ok false
  end.

Definition has_keys (o : out) : except bool :=
  match o with
  | OVal v => value_has_keys v
  | OFromTo _ _ => Ok true
  | OMap m => Ok (negb (match m with [] => true | _ => false end))
  end.

(** [Object.keys(r.additions).length > 0 || ... deletions ... || ... updates ...] *)
Definition result_nonempty (r : DiffResult) : except bool :=
  let! a := has_keys (additions r) in
  if a then Ok true else
  let! d := has_keys (deletions r) in
  if d then Ok true else
  has_keys (updates r).

(** ** [compareArrays] (comparison.ts, lines 70-186) *)

(** [i.toString()] *)
Definition string_of_nat (i : nat) : string :=
  DecimalString.NilEmpty.string_of_uint (Nat.to_uint i).

(** [typeof item !== 'object' || item === null] *)
Definition non_object (v : value) : bool :=
  negb (jstype_eqb (typeof v) TObject) || strict_eq v VNull.

(** [typeof item !== 'object' || item === null || Array.isArray(item)] *)
Definition non_object_or_array (v : value) : bool :=
  non_object v || isArray v.

(** [typeof item === 'object' && item !== null && !Array.isArray(item)] *)
Definition object_non_array (v : value) : bool :=
  jstype_eqb (typeof v) TObject && negb (strict_eq v VNull) && negb (isArray v).

(** [[...xs].sort()] with no comparator: [undefined] elements go last, the
    others are ordered by their string conversion, comparing code units;
    the sort is stable.  The stable insertion sort below gives the same
    result as any stable sort by that order.  The sorted arrays hold only
    elements that are not objects, so the conversion of objects is not
    reached. *)
Definition sort_key (v : value) : string :=
  match v with
  | VUndefined => "undefined"
  | VNull => "null"
  | VBool true => "true"
  | VBool false => "false"
  | VNum n => String_of_number n
  | VStr s => s
  | VDate _ _ | VOther _ | VArr _ _ | VObj _ _ => "[object Object]"
  end.

Definition is_undefined (v : value) : bool :=
  match v with VUndefined => true | _ => false end.

Fixpoint insert_by_key (x : value) (l : list value) : list value :=
  match l with
  | [] => [x]
  | y :: l' =>
      if String.leb (sort_key x) (sort_key y) then x :: l
      else y :: insert_by_key x l'
  end.

Definition default_sort (xs : list value) : list value :=
  fold_right insert_by_key [] (filter (fun v => negb (is_undefined v)) xs)
  ++ filter is_undefined xs.

(** The loop over the sorted copies: [comparePrimitives(sortedA[i], sortedB[i], ...)] *)
Fixpoint compare_sorted (coerce : bool) (xs ys : list value) : bool :=
  match xs, ys with
  | x :: xs', y :: ys' => comparePrimitives x y coerce && compare_sorted coerce xs' ys'
  | _, _ => true
  end.

Section WithInternalDiff.

(** [compareArrays] receives [internalDiff] as a parameter. *)
Variable internalDiff : value -> value -> ComparisonContext -> except DiffResult.

(** The order-sensitive loop ("Compare elements in order"), from index [i]. *)
Fixpoint compare_in_order (c : ComparisonContext) (i : nat) (xs ys : list value)
    {struct ys} : except bool :=
  match xs, ys with
  | itemA :: xs', itemB :: ys' =>
      if non_object_or_array itemA && non_object_or_array itemB then
        if comparePrimitives itemA itemB (coercion c)
        then compare_in_order c (S i) xs' ys'
        else Ok false
      else if object_non_array itemA && object_non_array itemB && below_maxDepth c then
        let! diffResult :=
          internalDiff itemA itemB
            (mkCtx (path c ++ [string_of_nat i]) (S (depth c)) (options c)) in
        let! differs := result_nonempty diffResult in
        if differs then Ok false else compare_in_order c (S i) xs' ys'
      else Ok false
  | _, _ => Ok true
  end.

Definition compareArrays (arrayA arrayB : list value) (c : ComparisonContext)
    : except bool :=
  if negb (List.length arrayA =? List.length arrayB)%nat then Ok false
  else if (List.length arrayA =? 0)%nat then Ok true
  else if negb (truthy (arrayOrderMatters (options c)))
          && forallb non_object arrayA && forallb non_object arrayB
  then Ok (compare_sorted (coercion c) (default_sort arrayA) (default_sort arrayB))
  else compare_in_order c 0 arrayA arrayB.

(** ** [compareObjects] (index.ts, lines 108-206) *)

(** The first loop: keys of [objA] absent from [objB] are deletions. *)
Fixpoint deletions_loop (c : ComparisonContext) (keysA : list (string * value))
    (objB : list (string * value)) (dels : list (string * out))
    : list (string * out) :=
  match keysA with
  | [] => dels
  | (key, valueA) :: keysA' =>
      let dels' :=
        if shouldIgnoreProperty (currentPath c key) (ignoreProperties (options c))
        then dels
        else if negb (has_key objB key) then map_set dels key (OVal valueA)
        else dels in
      deletions_loop c keysA' objB dels'
  end.

Record maps := mkMaps {
  m_additions : list (string * out);
  m_deletions : list (string * out);
  m_updates : list (string * out)
}.

(** One iteration of the second loop, for a key of [objB] that is also a
    key of [objA]. *)
Definition compare_values_step (c : ComparisonContext) (key : string)
    (valueA valueB : value) (r : maps)
    (nested : unit -> except DiffResult)
    (arrays : list value -> list value -> except bool) : except maps :=
  if below_maxDepth c && isPlainObject valueA && isPlainObject valueB then
    let! nestedResult := nested tt in
    let! na := has_keys (additions nestedResult) in
    let adds := if na then map_set (m_additions r) key (additions nestedResult)
                else m_additions r in
    let! nd := has_keys (deletions nestedResult) in
    let dels := if nd then map_set (m_deletions r) key (deletions nestedResult)
                else m_deletions r in
    let! nu := has_keys (updates nestedResult) in
    let upds := if nu then map_set (m_updates r) key (updates nestedResult)
                else m_updates r in
    Ok (mkMaps adds dels upds)
  else
    match valueA, valueB with
    | VArr _ xs, VArr _ ys =>
        let! eq := arrays xs ys in
        if eq then Ok r
        else Ok (mkMaps (m_additions r) (m_deletions r)
                   (map_set (m_updates r) key (OFromTo valueA valueB)))
    | _, _ =>
        if comparePrimitives valueA valueB (coercion c) then Ok r
        else Ok (mkMaps (m_additions r) (m_deletions r)
                   (map_set (m_updates r) key (OFromTo valueA valueB)))
    end.

End WithInternalDiff.

(** One iteration of the second loop, for the key [key] of [objB] with
    value [valueB]. *)
Definition keyB_step
    (internalDiff : value -> value -> ComparisonContext -> except DiffResult)
    (c : ComparisonContext) (objA : list (string * value)) (key : string)
    (valueB : value) (r : maps) : except maps :=
  if shouldIgnoreProperty (currentPath c key) (ignoreProperties (options c))
  then Ok r
  else match lookup objA key with
       | None =>
           Ok (mkMaps (map_set (m_additions r) key (OVal valueB))
                 (m_deletions r) (m_updates r))
       | Some valueA =>
           compare_values_step c key valueA valueB r
             (fun _ => internalDiff valueA valueB
                         (mkCtx (path c ++ [key]) (S (depth c)) (options c)))
             (fun xs ys => compareArrays internalDiff xs ys
                             (mkCtx (path c ++ [key]) (depth c) (options c)))
       end.

(** The second loop: keys of [objB] are additions, or are compared with the
    value of [objA]. *)
Fixpoint keysB_loop
    (internalDiff : value -> value -> ComparisonContext -> except DiffResult)
    (c : ComparisonContext) (objA keysB : list (string * value)) (r : maps)
    {struct keysB} : except maps :=
  match keysB with
  | [] => Ok r
  | (key, valueB) :: keysB' =>
      let! r' := keyB_step internalDiff c objA key valueB r in
      keysB_loop internalDiff c objA keysB' r'
  end.

Definition compareObjects
    (internalDiff : value -> value -> ComparisonContext -> except DiffResult)
    (objA objB : list (string * value)) (c : ComparisonContext)
    : except DiffResult :=
  let dels := deletions_loop c objA objB [] in
  let! r := keysB_loop internalDiff c objA objB (mkMaps [] dels []) in
  Ok (mkResult (OMap (m_additions r)) (OMap (m_deletions r)) (OMap (m_updates r))).

(** ** [internalDiff] (index.ts, lines 44-103) *)
Fixpoint internalDiff (objA objB : value) (c : ComparisonContext) {struct objB}
    : except DiffResult :=
  if is_nullish objA && is_nullish objB then Ok empty_result
  else if is_nullish objA then Ok (set_additions empty_result (OVal objB))
  else if is_nullish objB then Ok (set_deletions empty_result (OVal objA))
  else if negb (jstype_eqb (typeof objA) (typeof objB)) then
    if coercion c then Ok (set_updates empty_result (OFromTo objA objB))
    else Ok (set_updates empty_result (OFromTo objA objB))
  else
    match objA, objB with
    | VArr _ xs, VArr _ ys =>
        let! eq := compareArrays internalDiff xs ys c in
        if eq then Ok empty_result
        else Ok (set_updates empty_result (OFromTo objA objB))
    | VObj _ fa, VObj _ fb => compareObjects internalDiff fa fb c
    | _, _ =>
        if comparePrimitives objA objB (coercion c) then Ok empty_result
        else Ok (set_updates empty_result (OFromTo objA objB))
    end.

(** ** [diff] (index.ts, lines 215-234) *)

Definition DEFAULT_OPTIONS : Options :=
  mkOptions (Some []) (Some true) (Some true) (Some (Fin 10)).

(** The caller's [DiffOptions]: for each field, [None] when the key is
    absent, [Some None] when it is present and [undefined]. *)
Record DiffOptions := mkDiffOptions {
  opt_ignoreProperties : option (option (list string));
  opt_enableTypeCoercion : option (option bool);
  opt_arrayOrderMatters : option (option bool);
  opt_maxDepth : option (option number)
}.

Definition no_options : DiffOptions := mkDiffOptions None None None None.

(** [{arrayOrderMatters: false}] *)
Definition unordered_options : DiffOptions :=
  mkDiffOptions None None (Some (Some false)) None.

Definition spread {A} (default : option A) (given : option (option A)) : option A :=
  match given with None => default | Some v => v end.

(** [{...DEFAULT_OPTIONS, ...options}] *)
Definition mergeOptions (o : DiffOptions) : Options :=
  mkOptions
    (spread (ignoreProperties DEFAULT_OPTIONS) (opt_ignoreProperties o))
    (spread (enableTypeCoercion DEFAULT_OPTIONS) (opt_enableTypeCoercion o))
    (spread (arrayOrderMatters DEFAULT_OPTIONS) (opt_arrayOrderMatters o))
    (spread (maxDepth DEFAULT_OPTIONS) (opt_maxDepth o)).

Definition diff (objectA objectB : value) (o : DiffOptions) : except DiffResult :=
  internalDiff objectA objectB (mkCtx [] 0 (mergeOptions o)).

End Engine.

(** ** The engine over a store of objects

    The definitions above return the result objects as values.  To follow
    what the code writes, the same engine is written here over a store: the
    objects the call allocates (the result objects and their three maps,
    the [{from, to}] records, the copies [[...arrayA]] that are sorted) live
    in the store at fresh locations, every property write and every
    in-place sort names its target, and a result field can hold a value of
    the inputs by reference ([result.additions = objB]).  The inputs keep
    their own locations ([ref_of]); a write to one of them is logged with
    that location.  Recursion is bounded by a fuel argument. *)

Section StoreEngine.
Context {rt : JSRuntime}.

(** A JS value as the store sees it: a value of the inputs, or a reference
    to an object allocated during the call. *)
Inductive hval : Type :=
| HV (v : value)
| HRef (l : loc).

Inductive hobj : Type :=
| HObj (fs : list (string * hval))
| HArr (xs : list value).

(** [written] logs the location of every write, the latest first. *)
Record heap := mkHeap {
  next : loc;
  cells : list (loc * hobj);
  written : list loc
}.

Definition M (A : Type) : Type := heap -> option (A * heap).

Definition retM {A} (x : A) : M A := fun h => Some (x, h).

Definition bindM {A B} (m : M A) (k : A -> M B) : M B :=
  fun h => match m h with Some (x, h') => k x h' | None => None end.

Notation "'let*' x ':=' m 'in' k" := (bindM m (fun x => k))
  (at level 200, x name, m at level 100, k at level 200).

Definition failM {A} : M A := fun _ => None.

Fixpoint cell_lookup (cs : list (loc * hobj)) (l : loc) : option hobj :=
  match cs with
  | [] => None
  | (l', o) :: cs' => if (l' =? l)%nat then Some o else cell_lookup cs' l
  end.

Definition cell_update (cs : list (loc * hobj)) (l : loc) (o : hobj) :=
  map (fun lo => if (fst lo =? l)%nat then (fst lo, o) else lo) cs.

(** [{...}] / [[...]]: a new object at the next free location *)
Definition alloc (o : hobj) : M loc :=
  fun h => Some (next h, mkHeap (S (next h)) ((next h, o) :: cells h) (written h)).

Fixpoint hmap_set (fs : list (string * hval)) (key : string) (v : hval) :=
  match fs with
  | [] => [(key, v)]
  | (k, w) :: fs' => if k =? key then (k, v) :: fs' else (k, w) :: hmap_set fs' key v
  end.

(** [target[key] = v] *)
Definition set_prop (target : hval) (key : string) (v : hval) : M unit :=
  match target with
  | HRef l => fun h =>
      match cell_lookup (cells h) l with
      | Some (HObj fs) =>
          Some (tt, mkHeap (next h) (cell_update (cells h) l (HObj (hmap_set fs key v)))
                           (l :: written h))
      | _ => None
      end
  | HV v =>
      match ref_of v with
      | Some l => fun h => Some (tt, mkHeap (next h) (cells h) (l :: written h))
      | None => failM
      end
  end.

(** [target[key]] *)
Definition get_prop (target : hval) (key : string) : M hval :=
  fun h =>
    match target with
    | HRef l =>
        match cell_lookup (cells h) l with
        | Some (HObj fs) => Some (match lookup fs key with Some v => v | None => HV VUndefined end, h)
        | _ => None
        end
    | HV (VObj _ fs) => Some (match lookup fs key with Some v => HV v | None => HV VUndefined end, h)
    | HV _ => Some (HV VUndefined, h)
    end.

(** [Object.keys(target).length > 0] *)
Definition keys_nonempty (target : hval) : M bool :=
  fun h =>
    match target with
    | HRef l =>
        match cell_lookup (cells h) l with
        | Some (HObj fs) => Some (negb (match fs with [] => true | _ => false end), h)
        | Some (HArr xs) => Some (negb (match xs with [] => true | _ => false end), h)
        | None => None
        end
    | HV v => match value_has_keys v with Ok b => Some (b, h) | Throw _ => None end
    end.

(** [target.sort()] on an array, in place *)
Definition sort_in_place (target : hval) : M unit :=
  match target with
  | HRef l => fun h =>
      match cell_lookup (cells h) l with
      | Some (HArr xs) =>
          Some (tt, mkHeap (next h) (cell_update (cells h) l (HArr (default_sort xs)))
                           (l :: written h))
      | _ => None
      end
  | HV (VArr l _) => fun h => Some (tt, mkHeap (next h) (cells h) (l :: written h))
  | HV _ => failM
  end.

(** The elements of an array of the store *)
Definition read_array (target : hval) : M (list value) :=
  fun h =>
    match target with
    | HRef l => match cell_lookup (cells h) l with Some (HArr xs) => Some (xs, h) | _ => None end
    | HV (VArr _ xs) => Some (xs, h)
    | HV _ => None
    end.

(** [const sortedA = [...arrayA].sort();] *)
Definition sorted_copy (xs : list value) : M (list value) :=
  let* l := alloc (HArr xs) in
  let* _ := sort_in_place (HRef l) in
  read_array (HRef l).

(** [{ additions: {}, deletions: {}, updates: {} }] *)
Definition new_result : M hval :=
  let* la := alloc (HObj []) in
  let* ld := alloc (HObj []) in
  let* lu := alloc (HObj []) in
  let* r := alloc (HObj [("additions", HRef la); ("deletions", HRef ld); ("updates", HRef lu)]) in
  retM (HRef r).

(** [{ from: a, to: b }] *)
Definition new_from_to (a b : value) : M hval :=
  let* l := alloc (HObj [("from", HV a); ("to", HV b)]) in
  retM (HRef l).

(** [result.updates = { from: a, to: b }] *)
Definition set_update_record (result : hval) (a b : value) : M unit :=
  let* ft := new_from_to a b in
  set_prop result "updates" ft.

(** [result.<field>[key] = v] *)
Definition set_in_field (result : hval) (field key : string) (v : hval) : M unit :=
  let* m := get_prop result field in
  set_prop m key v.

(** [Object.keys(r.additions).length > 0 || ... || ...] *)
Definition result_nonempty_st (r : hval) : M bool :=
  let* a := get_prop r "additions" in
  let* na := keys_nonempty a in
  if na then retM true else
  let* d := get_prop r "deletions" in
  let* nd := keys_nonempty d in
  if nd then retM true else
  let* u := get_prop r "updates" in
  keys_nonempty u.


Section WithInternalDiffSt.

Variable internalDiff_st : value -> value -> ComparisonContext -> M hval.

(** "Compare elements in order", over the store *)
Fixpoint compare_in_order_st (c : ComparisonContext) (i : nat) (xs ys : list value)
    {struct ys} : M bool :=
  match xs, ys with
  | itemA :: xs', itemB :: ys' =>
      if non_object_or_array itemA && non_object_or_array itemB then
        if comparePrimitives itemA itemB (coercion c)
        then compare_in_order_st c (S i) xs' ys'
        else retM false
      else if object_non_array itemA && object_non_array itemB && below_maxDepth c then
        let* diffResult :=
          internalDiff_st itemA itemB
            (mkCtx (path c ++ [string_of_nat i]) (S (depth c)) (options c)) in
        let* differs := result_nonempty_st diffResult in
        if differs then retM false else compare_in_order_st c (S i) xs' ys'
      else retM false
  | _, _ => retM true
  end.

Definition compareArrays_st (arrayA arrayB : list value) (c : ComparisonContext) : M bool :=
  if negb (List.length arrayA =? List.length arrayB)%nat then retM false
  else if (List.length arrayA =? 0)%nat then retM true
  else if negb (truthy (arrayOrderMatters (options c)))
          && forallb non_object arrayA && forallb non_object arrayB
  then
    let* sortedA := sorted_copy arrayA in
    let* sortedB := sorted_copy arrayB in
    retM (compare_sorted (coercion c) sortedA sortedB)
  else compare_in_order_st c 0 arrayA arrayB.

(** The first loop of [compareObjects] *)
Fixpoint deletions_loop_st (c : ComparisonContext) (keysA objB : list (string * value))
    (result : hval) : M unit :=
  match keysA with
  | [] => retM tt
  | (key, valueA) :: keysA' =>
      let* _ :=
        if shouldIgnoreProperty (currentPath c key) (ignoreProperties (options c))
        then retM tt
        else if negb (has_key objB key) then set_in_field result "deletions" key (HV valueA)
        else retM tt in
      deletions_loop_st c keysA' objB result
  end.

(** [if (Object.keys(nestedResult.<field>).length > 0) result.<field>[key] = nestedResult.<field>;] *)
Definition copy_nonempty (result nested : hval) (field key : string) : M unit :=
  let* v := get_prop nested field in
  let* ne := keys_nonempty v in
  if ne then set_in_field result field key v else retM tt.

(** One iteration of the second loop of [compareObjects] *)
Definition keyB_step_st (c : ComparisonContext) (objA : list (string * value))
    (key : string) (valueB : value) (result : hval) : M unit :=
  if shouldIgnoreProperty (currentPath c key) (ignoreProperties (options c)) then retM tt
  else match lookup objA key with
       | None => set_in_field result "additions" key (HV valueB)
       | Some valueA =>
           if below_maxDepth c && isPlainObject valueA && isPlainObject valueB then
             let* nestedResult :=
               internalDiff_st valueA valueB
                 (mkCtx (path c ++ [key]) (S (depth c)) (options c)) in
             let* _ := copy_nonempty result nestedResult "additions" key in
             let* _ := copy_nonempty result nestedResult "deletions" key in
             copy_nonempty result nestedResult "updates" key
           else
             match valueA, valueB with
             | VArr _ xs, VArr _ ys =>
                 let* eq := compareArrays_st xs ys (mkCtx (path c ++ [key]) (depth c) (options c)) in
                 if eq then retM tt
                 else let* ft := new_from_to valueA valueB in
                      set_in_field result "updates" key ft
             | _, _ =>
                 if comparePrimitives valueA valueB (coercion c) then retM tt
                 else let* ft := new_from_to valueA valueB in
                      set_in_field result "updates" key ft
             end
       end.

Fixpoint keysB_loop_st (c : ComparisonContext) (objA keysB : list (string * value))
    (result : hval) : M unit :=
  match keysB with
  | [] => retM tt
  | (key, valueB) :: keysB' =>
      let* _ := keyB_step_st c objA key valueB result in
      keysB_loop_st c objA keysB' result
  end.

Definition compareObjects_st (objA objB : list (string * value)) (c : ComparisonContext)
    : M hval :=
  let* result := new_result in
  let* _ := deletions_loop_st c objA objB result in
  let* _ := keysB_loop_st c objA objB result in
  retM result.

End WithInternalDiffSt.

Fixpoint internalDiff_st (fuel : nat) (objA objB : value) (c : ComparisonContext)
    : M hval :=
  match fuel with
  | O => failM
  | S fuel' =>
      let* result := new_result in
      if is_nullish objA && is_nullish objB then retM result
      else if is_nullish objA then
        let* _ := set_prop result "additions" (HV objB) in retM result
      else if is_nullish objB then
        let* _ := set_prop result "deletions" (HV objA) in retM result
      else if negb (jstype_eqb (typeof objA) (typeof objB)) then
        if coercion c then let* _ := set_update_record result objA objB in retM result
        else let* _ := set_update_record result objA objB in retM result
      else
        match objA, objB with
        | VArr _ xs, VArr _ ys =>
            let* eq := compareArrays_st (internalDiff_st fuel') xs ys c in
            if eq then retM result
            else let* _ := set_update_record result objA objB in retM result
        | VObj _ fa, VObj _ fb => compareObjects_st (internalDiff_st fuel') fa fb c
        | _, _ =>
            if comparePrimitives objA objB (coercion c) then retM result
            else let* _ := set_update_record result objA objB in retM result
        end
  end.

Definition diff_st (fuel : nat) (objectA objectB : value) (o : DiffOptions) : M hval :=
  internalDiff_st fuel objectA objectB (mkCtx [] 0 (mergeOptions o)).


(** The locations of the objects and arrays of a value, nested ones included *)
Fixpoint value_locs (v : value) : list loc :=
  match v with
  | VDate l _ | VOther l => [l]
  | VArr l xs => l :: flat_map value_locs xs
  | VObj l fs => l :: flat_map (fun kv => value_locs (snd kv)) fs
  | _ => []
  end.

End StoreEngine.

(** ** The other utilities of [comparison.ts] *)

Section Utilities.
Context {rt : JSRuntime}.

(** [isFinite(n)] on a number *)
Definition isFinite (n : number) : bool :=
  match n with Fin _ => true | _ => false end.

(** [canCoerceToNumber] (comparison.ts, lines 376-383) *)
Definition canCoerceToNumber (v : value) : bool :=
  match v with
  | VNum _ => true
  | VStr s => let num := Number_of_string s in negb (isNaN num) && isFinite num
  | _ => false
  end.

(** [canCoerceToBoolean] (comparison.ts, lines 388-395) *)
Definition canCoerceToBoolean (v : value) : bool :=
  match v with
  | VBool _ => true
  | VStr s => let lower := toLowerCase s in (lower =? "true") || (lower =? "false")
  | _ => false
  end.

(** [canCoerceToDate] (comparison.ts, lines 400-407) *)
Definition canCoerceToDate (v : value) : bool :=
  match v with
  | VDate _ _ => true
  | VStr s => negb (isNaN (Date_parse s))
  | _ => false
  end.

(** The array index named by a property key: its canonical decimal form *)
Definition array_index (key : string) : option nat :=
  match DecimalString.NilEmpty.uint_of_string key with
  | Some d => let n := Nat.of_uint d in if string_of_nat n =? key then Some n else None
  | None => None
  end.

(** [current[key]] on a value of type ["object"] (read as data, as the
    engine reads its inputs: an own field of an object, an element or the
    [length] of an array; a Date, RegExp, Map or Set has no data field). *)
Definition get_property (current : value) (key : string) : value :=
  match current with
  | VObj _ fs => match lookup fs key with Some v => v | None => VUndefined end
  | VArr _ xs =>
      if key =? "length" then VNum (Fin (inject_Z (Z.of_nat (List.length xs))))
      else match array_index key with
           | Some i => nth i xs VUndefined
           | None => VUndefined
           end
  | _ => VUndefined
  end.

(** [getNestedValue] (comparison.ts, lines 227-241) *)
Fixpoint getNestedValue (current : value) (path : list string) : value :=
  match path with
  | [] => current
  | key :: path' =>
      if is_nullish current || negb (jstype_eqb (typeof current) TObject)
      then VUndefined
      else getNestedValue (get_property current key) path'
  end.








(** [s] holds no line terminator *)
Definition no_line_terminator (s : string) : bool :=
  forallb (fun c => negb (is_line_terminator c)) (list_ascii_of_string s).

End Utilities.

(** ** A concrete runtime for examples

    A fragment of [Number(s)], [String(n)] and [Date] parsing that is exact
    on integers written in decimal, which is all the examples below use.
    [js_Date_parse] parses no string. *)

Definition digit_value (c : ascii) : option N :=
  let n := nat_of_ascii c in
  if ((48 <=? n) && (n <=? 57))%nat then Some (N.of_nat (n - 48)) else None.

Fixpoint parse_digits (acc : N) (s : string) : option N :=
  match s with
  | EmptyString => Some acc
  | String c s' =>
      match digit_value c with
      | Some d => parse_digits (10 * acc + d)%N s'
      | None => None
      end
  end.

Definition parse_unsigned (s : string) : option N :=
  match s with EmptyString => None | _ => parse_digits 0%N s end.

Definition js_Number (s : string) : number :=
  match s with
  | EmptyString => Fin 0
  | "Infinity" => Infinity false
  | "-Infinity" => Infinity true
  | String "-" s' =>
      match parse_unsigned s' with Some k => Fin (inject_Z (- Z.of_N k)) | None => NaN end
  | _ => match parse_unsigned s with Some k => Fin (inject_Z (Z.of_N k)) | None => NaN end
  end.

Definition js_String (n : number) : string :=
  match n with
  | NaN => "NaN"
  | Infinity false => "Infinity"
  | Infinity true => "-Infinity"
  | Fin q =>
      let z := (Qnum q / Zpos (Qden q))%Z in
      let digits := DecimalString.NilEmpty.string_of_uint (N.to_uint (Z.to_N (Z.abs z))) in
      if (z <? 0)%Z then ("-" ++ digits)%string else digits
  end.

Definition js_Date_parse (_ : string) : number := NaN.

Definition js_runtime : JSRuntime :=
  {| Number_of_string := js_Number; String_of_number := js_String;
     Date_parse := js_Date_parse |}.

Definition js_diff := @diff js_runtime.

Definition obj (l : loc) (fs : list (string * value)) : value := VObj l fs.
Definition int (z : Z) : value := VNum (Fin (inject_Z z)).

Example scenario_update :
  js_diff (obj 1 [("name", VStr "John"); ("age", int 30)])
          (obj 2 [("name", VStr "John"); ("age", int 31)]) no_options
  = Ok (mkResult (OMap []) (OMap []) (OMap [("age", OFromTo (int 30) (int 31))])).
Proof. reflexivity. Qed.

Example scenario_addition :
  js_diff (obj 1 [("name", VStr "John")])
          (obj 2 [("name", VStr "John"); ("age", int 30)]) no_options
  = Ok (mkResult (OMap [("age", OVal (int 30))]) (OMap []) (OMap [])).
Proof. reflexivity. Qed.

Example scenario_coercion :
  js_diff (obj 1 [("age", int 30)]) (obj 2 [("age", VStr "30")]) no_options
  = Ok empty_result.
Proof. reflexivity. Qed.

Example scenario_no_coercion :
  js_diff (obj 1 [("age", int 30)]) (obj 2 [("age", VStr "30")])
    (mkDiffOptions None (Some (Some false)) None None)
  = Ok (mkResult (OMap []) (OMap []) (OMap [("age", OFromTo (int 30) (VStr "30"))])).
Proof. reflexivity. Qed.

Example scenario_unordered :
  js_diff (obj 1 [("tags", VArr 3 [VStr "js"; VStr "ts"])])
          (obj 2 [("tags", VArr 4 [VStr "ts"; VStr "js"])])
    (mkDiffOptions None None (Some (Some false)) None)
  = Ok empty_result.
Proof. reflexivity. Qed.

Example scenario_ignore_nested :
  js_diff (obj 1 [("user", obj 3 [("name", VStr "John"); ("_id", VStr "123")])])
          (obj 2 [("user", obj 4 [("name", VStr "John"); ("_id", VStr "456")])])
    (mkDiffOptions (Some (Some ["user._id"])) None None None)
  = Ok empty_result.
Proof. reflexivity. Qed.

Example scenario_ignore_wildcard :
  js_diff (obj 1 [("user", obj 3 [("name", VStr "John"); ("_id", VStr "123"); ("_version", int 1)])])
          (obj 2 [("user", obj 4 [("name", VStr "John"); ("_id", VStr "456"); ("_version", int 2)])])
    (mkDiffOptions (Some (Some ["user._*"])) None None None)
  = Ok empty_result.
Proof. reflexivity. Qed.

Example scenario_nested_addition :
  js_diff (obj 1 [("user", obj 3 [("name", VStr "John")])])
          (obj 2 [("user", obj 4 [("name", VStr "John"); ("profile", obj 5 [("email", VStr "j@x")])])])
    no_options
  = Ok (mkResult (OMap [("user", OMap [("profile", OVal (obj 5 [("email", VStr "j@x")]))])])
                 (OMap []) (OMap [])).
Proof. reflexivity. Qed.

(** * Proofs *)

(** ** Induction on values, through the nested lists *)

Section ValueInd.
Variable P : value -> Prop.
Hypothesis P_undefined : P VUndefined.
Hypothesis P_null : P VNull.
Hypothesis P_bool : forall b, P (VBool b).
Hypothesis P_num : forall n, P (VNum n).
Hypothesis P_str : forall s, P (VStr s).
Hypothesis P_date : forall l t, P (VDate l t).
Hypothesis P_other : forall l, P (VOther l).
Hypothesis P_arr : forall l xs, Forall P xs -> P (VArr l xs).
Hypothesis P_obj : forall l fs, Forall (fun kv => P (snd kv)) fs -> P (VObj l fs).

Fixpoint value_ind' (v : value) : P v :=
  match v with
  | VUndefined => P_undefined
  | VNull => P_null
  | VBool b => P_bool b
  | VNum n => P_num n
  | VStr s => P_str s
  | VDate l t => P_date l t
  | VOther l => P_other l
  | VArr l xs =>
      P_arr l xs
        ((fix elems (xs : list value) : Forall P xs :=
            match xs with
            | [] => Forall_nil _
            | x :: xs' => Forall_cons x (value_ind' x) (elems xs')
            end) xs)
  | VObj l fs =>
      P_obj l fs
        ((fix fields (fs : list (string * value)) : Forall (fun kv => P (snd kv)) fs :=
            match fs with
            | [] => Forall_nil _
            | kv :: fs' => Forall_cons kv (value_ind' (snd kv)) (fields fs')
            end) fs)
  end.
End ValueInd.

Section Proofs.
Context {rt : JSRuntime}.

(** ** No call throws *)

(** A result field that is a result map or an update record, never a value
    of the inputs: [Object.keys] on it does not throw. *)
Definition not_value (o : out) : Prop :=
  match o with OVal _ => False | _ => True end.

Definition shaped (r : DiffResult) : Prop :=
  not_value (additions r) /\ not_value (deletions r) /\ not_value (updates r).

Lemma has_keys_not_value o : not_value o -> exists b, has_keys o = Ok b.
Proof. destruct o; simpl; intros H; [contradiction | eauto | eauto]. Qed.

Lemma result_nonempty_shaped r : shaped r -> exists b, result_nonempty r = Ok b.
Proof.
  intros (Ha & Hd & Hu); unfold result_nonempty.
  destruct (has_keys_not_value _ Ha) as [ba ->].
  destruct ba; [eauto|].
  destruct (has_keys_not_value _ Hd) as [bd ->].
  destruct bd; [eauto|].
  exact (has_keys_not_value _ Hu).
Qed.

(** What the induction establishes for the second argument [b]. *)
Definition diff_total_at (b : value) : Prop :=
  forall a c, exists r, internalDiff a b c = Ok r /\
    (is_nullish a = false -> is_nullish b = false -> shaped r).

Lemma compare_in_order_total c ys :
  Forall diff_total_at ys ->
  forall i xs, exists e, compare_in_order internalDiff c i xs ys = Ok e.
Proof.
  induction 1 as [|y ys Hy Hys IH]; intros i xs; destruct xs as [|x xs]; simpl; eauto.
  destruct (non_object_or_array x && non_object_or_array y); [destruct (comparePrimitives x y _); eauto|].
  destruct (object_non_array x && object_non_array y && below_maxDepth c) eqn:Hobj; [|eauto].
  apply andb_true_iff in Hobj as [Hobj _]; apply andb_true_iff in Hobj as [Hx Hy'].
  destruct (Hy x (mkCtx (path c ++ [string_of_nat i]) (S (depth c)) (options c)))
    as [r [-> Hr]].
  assert (Hs : shaped r).
  { apply Hr; [destruct x | destruct y]; simpl in *; try reflexivity; discriminate. }
  destruct (result_nonempty_shaped r Hs) as [[|] ->]; eauto.
Qed.

Lemma compareArrays_total c xs ys :
  Forall diff_total_at ys -> exists e, compareArrays internalDiff xs ys c = Ok e.
Proof.
  intros H; unfold compareArrays.
  repeat match goal with |- context [if ?t then _ else _] => destruct t end; eauto.
  apply compare_in_order_total; assumption.
Qed.

Definition elems_total (v : value) : Prop :=
  match v with VArr _ ys => Forall diff_total_at ys | _ => True end.


Lemma compare_values_step_ok c key va vb r nested arrays :
  (below_maxDepth c && isPlainObject va && isPlainObject vb = true ->
     exists n, nested tt = Ok n /\ shaped n) ->
  (forall la lb xs ys, va = VArr la xs -> vb = VArr lb ys -> exists e, arrays xs ys = Ok e) ->
  exists r', compare_values_step c key va vb r nested arrays = Ok r'.
Proof.
  intros Hn Ha; unfold compare_values_step.
  destruct (below_maxDepth c && isPlainObject va && isPlainObject vb) eqn:Hrec.
  - destruct (Hn eq_refl) as (n & -> & Hna & Hnd & Hnu).
    destruct (has_keys_not_value _ Hna) as [ba ->].
    destruct (has_keys_not_value _ Hnd) as [bd ->].
    destruct (has_keys_not_value _ Hnu) as [bu ->]; eauto.
  - destruct va, vb; try (destruct (comparePrimitives _ _ _); eauto; fail).
    destruct (Ha _ _ _ _ eq_refl eq_refl) as [[|] ->]; eauto.
Qed.

Lemma keysB_loop_total c fa fb r :
  Forall (fun kv => diff_total_at (snd kv) /\ elems_total (snd kv)) fb ->
  exists r', keysB_loop internalDiff c fa fb r = Ok r'.
Proof.
  intros H; revert r; induction H as [|[key vb] fb [Hvb Hel] Hfb IH]; intros r; simpl; eauto.
  unfold keyB_step.
  destruct (shouldIgnoreProperty _ _); [apply IH|].
  destruct (lookup fa key) as [va|]; [|apply IH].
  destruct (compare_values_step_ok c key va vb r
              (fun _ => internalDiff va vb (mkCtx (path c ++ [key]) (S (depth c)) (options c)))
              (fun xs ys => compareArrays internalDiff xs ys
                              (mkCtx (path c ++ [key]) (depth c) (options c))))
    as [r' ->]; [| |apply IH].
  - intros Hp; apply andb_true_iff in Hp as [Hp Hb]; apply andb_true_iff in Hp as [_ Ha].
    destruct (Hvb va (mkCtx (path c ++ [key]) (S (depth c)) (options c))) as [n [Hn Hs]].
    exists n; split; [exact Hn|].
    apply Hs; [destruct va | destruct vb]; simpl in *; congruence.
  - intros la lb xs ys -> ->; simpl in Hel.
    apply compareArrays_total; exact Hel.
Qed.


Ltac total_finish :=
  simpl;
  repeat match goal with |- context [if ?t then _ else _] => destruct t end;
  (eexists; split; [reflexivity|]);
  intros Ha Hb; repeat split; simpl in *; try discriminate; auto.

Lemma internalDiff_total_gen b : diff_total_at b /\ elems_total b.
Proof.
  induction b using value_ind'; try (split; [intros a c; destruct a; total_finish | exact I]; fail).
  - assert (Hel : Forall diff_total_at xs)
      by (eapply Forall_impl; [|exact H]; intros v [Hv _]; exact Hv).
    split; [|exact Hel].
    intros a c; destruct a as [| |? |? |? |? ? |? |la xa|? ?]; try (total_finish; fail).
    simpl.
    destruct (compareArrays_total c xa xs Hel) as [[|] ->];
      (eexists; split; [reflexivity|]); intros; repeat split; simpl; auto.
  - split; [|exact I].
    intros a c; destruct a as [| |? |? |? |? ? |? |? ?|la fa]; try (total_finish; fail).
    simpl; unfold compareObjects.
    destruct (keysB_loop_total c fa fs
                (mkMaps [] (deletions_loop c fa fs []) []) H) as [r ->].
    (eexists; split; [reflexivity|]); intros; repeat split; simpl; auto.
Qed.

Lemma internalDiff_total a b c : exists r, internalDiff a b c = Ok r.
Proof.
  destruct (proj1 (internalDiff_total_gen b) a c) as [r [H _]]; eauto.
Qed.

(** ** Per-key effect of the second loop of [compareObjects] *)

Definition maps_at (r : maps) (k : string) : option out * option out * option out :=
  (lookup (m_additions r) k, lookup (m_deletions r) k, lookup (m_updates r) k).

Definition set_opt (m : list (string * out)) (key : string) (e : option out) :=
  match e with None => m | Some v => map_set m key v end.

Definition apply_eff (key : string) (e : option out * option out * option out)
    (r : maps) : maps :=
  let '(ea, ed, eu) := e in
  mkMaps (set_opt (m_additions r) key ea) (set_opt (m_deletions r) key ed)
    (set_opt (m_updates r) key eu).

Lemma lookup_map_set m k v k' :
  lookup (map_set m k v) k' = if String.eqb k k' then Some v else lookup m k'.
Proof.
  induction m as [|[k0 w] m IH]; simpl.
  - destruct (String.eqb k k'); reflexivity.
  - destruct (String.eqb k0 k) eqn:E1.
    + apply String.eqb_eq in E1; subst k0; simpl.
      destruct (String.eqb k k'); reflexivity.
    + simpl; rewrite IH.
      destruct (String.eqb k0 k') eqn:E2; [|reflexivity].
      apply String.eqb_eq in E2; subst k0.
      rewrite String.eqb_sym, E1; reflexivity.
Qed.

Lemma lookup_set_opt_other m k e k' :
  k <> k' -> lookup (set_opt m k e) k' = lookup m k'.
Proof.
  intros Hne; destruct e; simpl; [|reflexivity].
  rewrite lookup_map_set; apply String.eqb_neq in Hne; rewrite Hne; reflexivity.
Qed.

Lemma lookup_set_opt_same m k e :
  lookup (set_opt m k e) k = match e with Some v => Some v | None => lookup m k end.
Proof.
  destruct e; simpl; [|reflexivity].
  rewrite lookup_map_set, String.eqb_refl; reflexivity.
Qed.

Lemma maps_at_apply_other k e r k' :
  k <> k' -> maps_at (apply_eff k e r) k' = maps_at r k'.
Proof.
  intros Hne; destruct e as [[ea ed] eu]; unfold maps_at; simpl.
  rewrite !lookup_set_opt_other by exact Hne; reflexivity.
Qed.

Lemma maps_at_apply_same k e r :
  maps_at (apply_eff k e r) k =
  let '(ea, ed, eu) := e in
  (match ea with Some v => Some v | None => lookup (m_additions r) k end,
   match ed with Some v => Some v | None => lookup (m_deletions r) k end,
   match eu with Some v => Some v | None => lookup (m_updates r) k end).
Proof.
  destruct e as [[ea ed] eu]; unfold maps_at; simpl.
  rewrite !lookup_set_opt_same; reflexivity.
Qed.

Lemma maps_at_apply_local k e r1 r2 :
  maps_at r1 k = maps_at r2 k ->
  maps_at (apply_eff k e r1) k = maps_at (apply_eff k e r2) k.
Proof.
  rewrite !maps_at_apply_same; unfold maps_at; intros H; inversion H.
  destruct e as [[ea ed] eu]; rewrite H1, H2, H3; reflexivity.
Qed.

Lemma compare_values_step_eff c key va vb r n a r' :
  compare_values_step c key va vb r n a = Ok r' ->
  exists e, forall r0, compare_values_step c key va vb r0 n a = Ok (apply_eff key e r0).
Proof.
  unfold compare_values_step.
  destruct (below_maxDepth c && isPlainObject va && isPlainObject vb).
  - destruct (n tt) as [nr|]; [|discriminate]; cbn.
    destruct (has_keys (additions nr)) as [na|]; [|discriminate]; cbn.
    destruct (has_keys (deletions nr)) as [nd|]; [|discriminate]; cbn.
    destruct (has_keys (updates nr)) as [nu|]; [|discriminate]; cbn.
    intros _.
    exists (if na then Some (additions nr) else None,
            if nd then Some (deletions nr) else None,
            if nu then Some (updates nr) else None).
    intros [ma md mu]; destruct na, nd, nu; reflexivity.
  - destruct (comparePrimitives va vb (coercion c));
    destruct va, vb; cbn;
      try destruct (a _ _) as [[|]|];
      try discriminate; intros _;
      first [ exists (None, None, None); intros [? ? ?]; reflexivity
            | eexists (None, None, Some _); intros [? ? ?]; reflexivity ].
Qed.

Section Loops.
Variable f : value -> value -> ComparisonContext -> except DiffResult.
Variable c : ComparisonContext.
Variable fa : list (string * value).

Lemma keyB_step_eff k vb r r' :
  keyB_step f c fa k vb r = Ok r' ->
  exists e, forall r0, keyB_step f c fa k vb r0 = Ok (apply_eff k e r0).
Proof.
  unfold keyB_step.
  destruct (shouldIgnoreProperty _ _).
  - intros _; exists (None, None, None); intros [? ? ?]; reflexivity.
  - destruct (lookup fa k) as [va|].
    + apply compare_values_step_eff.
    + intros _; exists (Some (OVal vb), None, None); intros [? ? ?]; reflexivity.
Qed.

Lemma keyB_step_ok k vb r r' :
  keyB_step f c fa k vb r = Ok r' ->
  exists e, r' = apply_eff k e r /\
            forall r0, keyB_step f c fa k vb r0 = Ok (apply_eff k e r0).
Proof.
  intros H; destruct (keyB_step_eff k vb r r' H) as [e He].
  exists e; split; [|exact He].
  rewrite He in H; injection H; auto.
Qed.

Lemma keysB_loop_frame fb r r' k :
  keysB_loop f c fa fb r = Ok r' -> ~ In k (map fst fb) ->
  maps_at r' k = maps_at r k.
Proof.
  revert r; induction fb as [|[k0 v0] fb IH]; simpl; intros r H Hk.
  - injection H; intros ->; reflexivity.
  - destruct (keyB_step f c fa k0 v0 r) as [r1|] eqn:E; [|discriminate].
    destruct (keyB_step_ok _ _ _ _ E) as [e [-> _]].
    rewrite (IH _ H) by tauto.
    apply maps_at_apply_other; tauto.
Qed.

Lemma keysB_loop_at fb r r' k vb :
  NoDup (map fst fb) -> keysB_loop f c fa fb r = Ok r' -> In (k, vb) fb ->
  exists e, (forall r0, keyB_step f c fa k vb r0 = Ok (apply_eff k e r0)) /\
            maps_at r' k = maps_at (apply_eff k e r) k.
Proof.
  revert r; induction fb as [|[k0 v0] fb IH]; simpl; intros r Hnd H Hin;
    [contradiction|].
  inversion Hnd as [|? ? Hk0 Hnd']; subst.
  destruct (keyB_step f c fa k0 v0 r) as [r1|] eqn:E; [|discriminate].
  destruct (keyB_step_ok _ _ _ _ E) as [e [-> He]].
  destruct Hin as [Heq|Hin].
  - injection Heq; intros -> ->.
    exists e; split; [exact He|].
    apply (keysB_loop_frame _ _ _ _ H Hk0).
  - assert (Hne : k0 <> k)
      by (intros ->; apply Hk0; apply (in_map fst _ _ Hin)).
    destruct (IH _ Hnd' H Hin) as [e' [He' Hat]].
    exists e'; split; [exact He'|].
    rewrite Hat; apply maps_at_apply_local, maps_at_apply_other, Hne.
Qed.

End Loops.

Lemma deletions_loop_at c fa fb d k :
  NoDup (map fst fa) ->
  lookup (deletions_loop c fa fb d) k =
  match lookup fa k with
  | Some va =>
      if shouldIgnoreProperty (currentPath c k) (ignoreProperties (options c))
         || has_key fb k
      then lookup d k else Some (OVal va)
  | None => lookup d k
  end.
Proof.
  revert d; induction fa as [|[k0 v0] fa IH]; simpl; intros d Hnd; [reflexivity|].
  inversion Hnd as [|? ? Hk0 Hnd']; subst.
  rewrite IH by exact Hnd'.
  destruct (String.eqb k0 k) eqn:E.
  - apply String.eqb_eq in E; subst k0.
    destruct (lookup fa k) eqn:Hl.
    { exfalso; apply Hk0. clear -Hl. induction fa as [|[k1 v1] fa IH]; simpl in *;
        [discriminate|]. destruct (String.eqb k1 k) eqn:E;
        [left; apply String.eqb_eq; exact E|right; auto]. }
    destruct (shouldIgnoreProperty _ _); simpl; [reflexivity|].
    destruct (has_key fb k); simpl; [reflexivity|].
    rewrite lookup_map_set, String.eqb_refl; reflexivity.
  - assert (Hd : lookup (if shouldIgnoreProperty (currentPath c k0)
                              (ignoreProperties (options c)) then d
                         else if negb (has_key fb k0) then map_set d k0 (OVal v0)
                         else d) k = lookup d k).
    { destruct (shouldIgnoreProperty (currentPath c k0)
                  (ignoreProperties (options c))); [reflexivity|].
      destruct (negb (has_key fb k0)); [|reflexivity].
      rewrite lookup_map_set, E; reflexivity. }
    rewrite Hd; reflexivity.
Qed.

Definition out_lookup (o : out) (k : string) : option out :=
  match o with OMap m => lookup m k | _ => None end.

(** The entries of the three result maps under the key [k]. *)
Definition res_at (r : DiffResult) (k : string) : option out * option out * option out :=
  (out_lookup (additions r) k, out_lookup (deletions r) k, out_lookup (updates r) k).

Lemma has_key_In {A} (fs : list (string * A)) k :
  has_key fs k = true <-> In k (map fst fs).
Proof.
  unfold has_key; rewrite existsb_exists; split.
  - intros [[k' v] [Hin Hk]]; apply String.eqb_eq in Hk; simpl in Hk; subst k'.
    apply (in_map fst _ _ Hin).
  - rewrite in_map_iff; intros [[k' v] [Hk Hin]]; simpl in Hk; subst k'.
    exists (k, v); split; [exact Hin|apply String.eqb_refl].
Qed.

Lemma lookup_In {A} (fs : list (string * A)) k v :
  lookup fs k = Some v -> In (k, v) fs.
Proof.
  induction fs as [|[k' w] fs IH]; simpl; [discriminate|].
  destruct (String.eqb k' k) eqn:E; [|auto].
  apply String.eqb_eq in E; subst; intros H; injection H; intros ->; auto.
Qed.

Lemma In_lookup {A} (fs : list (string * A)) k v :
  NoDup (map fst fs) -> In (k, v) fs -> lookup fs k = Some v.
Proof.
  induction fs as [|[k' w] fs IH]; simpl; [contradiction|].
  intros Hnd Hin; inversion Hnd as [|? ? Hk Hnd']; subst.
  destruct Hin as [Heq|Hin].
  - injection Heq; intros -> ->; rewrite String.eqb_refl; reflexivity.
  - destruct (String.eqb k' k) eqn:E; [|auto].
    apply String.eqb_eq in E; subst k'.
    exfalso; apply Hk, (in_map fst _ _ Hin).
Qed.

Lemma lookup_None_In {A} (fs : list (string * A)) k :
  lookup fs k = None <-> ~ In k (map fst fs).
Proof.
  induction fs as [|[k' w] fs IH]; simpl; [tauto|].
  destruct (String.eqb k' k) eqn:E.
  - apply String.eqb_eq in E; subst; split; [discriminate|tauto].
  - apply String.eqb_neq in E; rewrite IH; tauto.
Qed.

Lemma compareObjects_at f fa fb c r k :
  NoDup (map fst fa) -> NoDup (map fst fb) ->
  compareObjects f fa fb c = Ok r ->
  (forall vb, In (k, vb) fb ->
     exists e, (forall r0, keyB_step f c fa k vb r0 = Ok (apply_eff k e r0)) /\
               res_at r k = maps_at (apply_eff k e (mkMaps [] [] [])) k) /\
  (~ In k (map fst fb) ->
     res_at r k =
     (None,
      match lookup fa k with
      | Some va =>
          if shouldIgnoreProperty (currentPath c k) (ignoreProperties (options c))
          then None else Some (OVal va)
      | None => None
      end,
      None)).
Proof.
  intros Hfa Hfb; unfold compareObjects.
  destruct (keysB_loop f c fa fb _) as [r'|] eqn:E; [|discriminate].
  intros H; injection H; intros <-; clear H.
  split.
  - intros vb Hin.
    destruct (keysB_loop_at _ _ _ _ _ _ _ _ Hfb E Hin) as [e [He Hat]].
    exists e; split; [exact He|].
    unfold res_at; simpl; fold (maps_at r' k); rewrite Hat.
    apply maps_at_apply_local; unfold maps_at; simpl.
    rewrite deletions_loop_at by exact Hfa.
    assert (Hk : has_key fb k = true)
      by (apply has_key_In, (in_map fst _ _ Hin)).
    rewrite Hk, orb_true_r; destruct (lookup fa k); reflexivity.
  - intros Hk.
    unfold res_at; simpl; fold (maps_at r' k).
    rewrite (keysB_loop_frame _ _ _ _ _ _ _ E Hk); unfold maps_at; simpl.
    rewrite deletions_loop_at by exact Hfa.
    assert (Hk' : has_key fb k = false)
      by (destruct (has_key fb k) eqn:H; [apply has_key_In in H; tauto|reflexivity]).
    rewrite Hk', orb_false_r; destruct (lookup fa k); reflexivity.
Qed.

(** ** C2: totality *)

(** C2. For every pair of inputs, including [null]/[undefined] at the top
    level, and every options object (any field absent, [undefined] or set),
    [diff] returns a [DiffResult] and never throws. *)
Theorem diff_never_throws :
  forall (a b : value) (o : DiffOptions), exists r, diff a b o = Ok r.
Proof.
  intros a b o; apply internalDiff_total.
Qed.


(** ** C10: [NaN] *)

(** C10. For both settings of [enableTypeCoercion], [comparePrimitives]
    finds [NaN] unequal to [NaN], and [diff({x: NaN}, {x: NaN})] reports
    [updates.x = {from: NaN, to: NaN}]. *)
Theorem nan_self_inequality :
  (forall enableTypeCoercion : bool,
     comparePrimitives (VNum NaN) (VNum NaN) enableTypeCoercion = false) /\
  (forall la lb : loc,
     diff (VObj la [("x", VNum NaN)]) (VObj lb [("x", VNum NaN)]) no_options =
     Ok (mkResult (OMap []) (OMap []) (OMap [("x", OFromTo (VNum NaN) (VNum NaN))]))).
Proof.
  split.
  - intros []; reflexivity.
  - intros la lb; reflexivity.
Qed.

(** ** C5: number/string coercion *)

Lemma comparePrimitives_num_str n s :
  comparePrimitives (VNum n) (VStr s) true =
  negb (isNaN (Number_of_string s)) && num_eqb n (Number_of_string s).
Proof.
  unfold comparePrimitives, coerceValues; simpl.
  destruct (isNaN (Number_of_string s)); reflexivity.
Qed.

Lemma comparePrimitives_str_num n s :
  comparePrimitives (VStr s) (VNum n) true =
  negb (isNaN (Number_of_string s)) && num_eqb (Number_of_string s) n.
Proof.
  unfold comparePrimitives, coerceValues; simpl.
  destruct (isNaN (Number_of_string s)); reflexivity.
Qed.

(** ** C7: the depth boundary *)

Lemma comparePrimitives_distinct_objects la fa lb fb coerce :
  la <> lb -> comparePrimitives (VObj la fa) (VObj lb fb) coerce = false.
Proof.
  intros Hne; apply Nat.eqb_neq in Hne.
  unfold comparePrimitives, coerceValues; simpl; rewrite Hne.
  destruct coerce; reflexivity.
Qed.

Lemma internalDiff_objects la fa lb fb c :
  internalDiff (VObj la fa) (VObj lb fb) c = compareObjects internalDiff fa fb c.
Proof. reflexivity. Qed.

(** C5. With coercion enabled, a number [n] and a string [s] are equal for
    [comparePrimitives] (in either order) iff [Number(s)] is not [NaN] and
    equals [n]; a string that does not parse is never equal.  With the
    runtime's [Number] on decimal strings,
    [diff({age: 30}, {age: "30"})] under the default options returns three
    empty maps. *)
Theorem number_string_coercion :
  (forall n s,
     comparePrimitives (VNum n) (VStr s) true = true <->
     isNaN (Number_of_string s) = false /\ num_eqb n (Number_of_string s) = true) /\
  (forall n s,
     comparePrimitives (VStr s) (VNum n) true = true <->
     isNaN (Number_of_string s) = false /\ num_eqb (Number_of_string s) n = true) /\
  (forall la lb : loc,
     js_diff (VObj la [("age", int 30)]) (VObj lb [("age", VStr "30")]) no_options
     = Ok empty_result).
Proof.
  split; [|split].
  - intros n s; rewrite comparePrimitives_num_str, andb_true_iff, negb_true_iff.
    reflexivity.
  - intros n s; rewrite comparePrimitives_str_num, andb_true_iff, negb_true_iff.
    reflexivity.
  - intros la lb; reflexivity.
Qed.

(** ** C4: no coercion at the top level *)

(** C4. When the two arguments of [diff] are not [null]/[undefined] and
    their [typeof] differ, [diff] returns empty additions and deletions and
    [updates = {from: a, to: b}], whatever the options.  One level down, the
    same pair under a key [k] that is not ignored is compared by
    [comparePrimitives] with the [enableTypeCoercion] setting: the key is an
    update exactly when that comparison fails. *)
Theorem top_level_no_coercion :
  (forall a b o,
     is_nullish a = false -> is_nullish b = false ->
     jstype_eqb (typeof a) (typeof b) = false ->
     diff a b o = Ok (mkResult (OMap []) (OMap []) (OFromTo a b))) /\
  (forall la lb k a b o,
     shouldIgnoreProperty k (ignoreProperties (mergeOptions o)) = false ->
     jstype_eqb (typeof a) (typeof b) = false ->
     diff (VObj la [(k, a)]) (VObj lb [(k, b)]) o =
     Ok (mkResult (OMap []) (OMap [])
           (OMap (if comparePrimitives a b (truthy (enableTypeCoercion (mergeOptions o)))
                  then [] else [(k, OFromTo a b)])))).
Proof.
  split.
  - intros a b o Ha Hb Ht; unfold diff.
    destruct a, b; simpl in *; try discriminate;
      destruct (coercion _); reflexivity.
  - intros la lb k a b o Hign Ht; unfold diff.
    rewrite internalDiff_objects; unfold compareObjects, keyB_step, currentPath.
    change (ignoreProperties (mergeOptions o))
      with (spread (Some []) (opt_ignoreProperties o)) in Hign.
    assert (Hc : currentPath (mkCtx [] 0 (mergeOptions o)) k = k) by reflexivity.
    simpl; unfold keyB_step; rewrite Hc; simpl; rewrite Hign, String.eqb_refl; simpl.
    unfold compare_values_step, coercion; simpl.
    destruct (below_maxDepth _);
      destruct a, b; try discriminate Ht; simpl;
      destruct (comparePrimitives _ _ _); reflexivity.
Qed.

(** ** C7: the depth boundary *)

(** C7. Inside two plain objects compared at a depth that is not below
    [maxDepth] (this includes [maxDepth = 0], and any depth), a key [k] that
    is not ignored and holds a plain object on both sides is not recursed
    into: when the two objects are distinct references, [updates] holds
    [k: {from, to}], whatever their contents. *)
Theorem depth_boundary_opaque :
  forall c la lb fa fb k va vb,
  NoDup (map fst fa) -> NoDup (map fst fb) ->
  below_maxDepth c = false ->
  shouldIgnoreProperty (currentPath c k) (ignoreProperties (options c)) = false ->
  lookup fa k = Some va -> lookup fb k = Some vb ->
  isPlainObject va = true -> isPlainObject vb = true ->
  ref_of va <> ref_of vb ->
  exists r, internalDiff (VObj la fa) (VObj lb fb) c = Ok r /\
            out_lookup (updates r) k = Some (OFromTo va vb).
Proof.
  intros c la lb fa fb k va vb Hfa Hfb Hd Hign Hka Hkb Hpa Hpb Href.
  destruct (internalDiff_total (VObj la fa) (VObj lb fb) c) as [r Hr].
  exists r; split; [exact Hr|].
  rewrite internalDiff_objects in Hr.
  destruct (proj1 (compareObjects_at _ _ _ _ _ k Hfa Hfb Hr) vb (lookup_In _ _ _ Hkb))
    as [e [He Hat]].
  specialize (He (mkMaps [] [] [])).
  unfold keyB_step in He; rewrite Hign, Hka in He.
  unfold compare_values_step in He; rewrite Hd in He.
  destruct va as [| | | | | | | |l1 f1]; try discriminate Hpa.
  destruct vb as [| | | | | | | |l2 f2]; try discriminate Hpb.
  rewrite comparePrimitives_distinct_objects in He
    by (intros ->; apply Href; reflexivity).
  simpl in He; injection He; intros He'.
  change (out_lookup (updates r) k) with (snd (res_at r k)).
  rewrite Hat, <- He'; unfold maps_at; simpl.
  rewrite String.eqb_refl; reflexivity.
Qed.


(** ** C8: one scalar entry per key *)

Definition is_scalar (o : option out) : bool :=
  match o with Some (OMap _) | None => false | Some _ => true end.

Definition is_present (o : option out) : bool :=
  match o with Some _ => true | None => false end.

Definition n_scalar (x : option out * option out * option out) : nat :=
  let '(a, d, u) := x in
  ((if is_scalar a then 1 else 0) + (if is_scalar d then 1 else 0)
   + (if is_scalar u then 1 else 0))%nat.

Definition n_present (x : option out * option out * option out) : nat :=
  let '(a, d, u) := x in
  ((if is_present a then 1 else 0) + (if is_present d then 1 else 0)
   + (if is_present u then 1 else 0))%nat.

Definition opt_if (b : bool) (o : out) : option out := if b then Some o else None.

Lemma compareObjects_in_fb f fa fb c r k vb :
  NoDup (map fst fa) -> NoDup (map fst fb) ->
  compareObjects f fa fb c = Ok r -> In (k, vb) fb ->
  exists r2, keyB_step f c fa k vb (mkMaps [] [] []) = Ok r2 /\ res_at r k = maps_at r2 k.
Proof.
  intros Hfa Hfb H Hin.
  destruct (proj1 (compareObjects_at _ _ _ _ _ k Hfa Hfb H) vb Hin) as [e [He Hat]].
  eauto.
Qed.

Lemma compareObjects_shape f fa fb c r :
  compareObjects f fa fb c = Ok r ->
  exists ma md mu, r = mkResult (OMap ma) (OMap md) (OMap mu).
Proof.
  unfold compareObjects; destruct (keysB_loop _ _ _ _ _); [|discriminate].
  intros H; injection H; intros <-; eauto.
Qed.

Lemma n_scalar_le_present x : (n_scalar x <= n_present x)%nat.
Proof.
  destruct x as [[a d] u]; simpl.
  destruct a as [[]|], d as [[]|], u as [[]|]; simpl; lia.
Qed.

(** What [compareObjects] holds under one key: at most one entry, or the
    nonempty parts of the result of the recursion into two plain objects. *)
Lemma compareObjects_key fa fb c r k :
  NoDup (map fst fa) -> NoDup (map fst fb) ->
  compareObjects internalDiff fa fb c = Ok r ->
  (n_present (res_at r k) <= 1)%nat \/
  exists va vb nr na nd nu,
    lookup fa k = Some va /\ lookup fb k = Some vb /\
    isPlainObject va = true /\ isPlainObject vb = true /\ below_maxDepth c = true /\
    internalDiff va vb (mkCtx (path c ++ [k]) (S (depth c)) (options c)) = Ok nr /\
    (exists ma md mu, nr = mkResult (OMap ma) (OMap md) (OMap mu)) /\
    res_at r k = (opt_if na (additions nr), opt_if nd (deletions nr),
                  opt_if nu (updates nr)).
Proof.
  intros Hfa Hfb H.
  destruct (lookup fb k) as [vb|] eqn:Hkb.
  - destruct (compareObjects_in_fb _ _ _ _ _ _ vb Hfa Hfb H (lookup_In _ _ _ Hkb))
      as [r2 [Hs Hat]].
    rewrite Hat; clear Hat H.
    unfold keyB_step in Hs.
    destruct (shouldIgnoreProperty _ _).
    { injection Hs; intros <-; left; simpl; lia. }
    destruct (lookup fa k) as [va|] eqn:Hka.
    2: { injection Hs; intros <-; left; unfold maps_at; simpl.
         rewrite String.eqb_refl; simpl; lia. }
    unfold compare_values_step in Hs.
    destruct (below_maxDepth c && isPlainObject va && isPlainObject vb) eqn:Hb.
    + right.
      apply andb_true_iff in Hb as [Hb Hpb]; apply andb_true_iff in Hb as [Hd Hpa].
      destruct (internalDiff va vb _) as [nr|] eqn:Hn; [|discriminate]; simpl in Hs.
      destruct (has_keys (additions nr)) as [na|]; [|discriminate]; simpl in Hs.
      destruct (has_keys (deletions nr)) as [nd|]; [|discriminate]; simpl in Hs.
      destruct (has_keys (updates nr)) as [nu|]; [|discriminate]; simpl in Hs.
      injection Hs; intros <-.
      exists va, vb, nr, na, nd, nu; repeat split; auto.
      * destruct va as [| |? |? |? |? ? |? |? ?|la fa']; try discriminate Hpa.
        destruct vb as [| |? |? |? |? ? |? |? ?|lb fb']; try discriminate Hpb.
        rewrite internalDiff_objects in Hn; exact (compareObjects_shape _ _ _ _ _ Hn).
      * unfold maps_at; simpl.
        destruct na, nd, nu; simpl; rewrite ?String.eqb_refl; reflexivity.
    + left; clear Hb; revert Hs.
      destruct (comparePrimitives va vb (coercion c));
        destruct va, vb; simpl;
        try destruct (compareArrays _ _ _ _) as [[|]|]; intros Hs;
        try discriminate Hs; injection Hs; intros <-;
        unfold maps_at; simpl; rewrite ?String.eqb_refl; simpl; lia.
  - left.
    assert (Hk : ~ In k (map fst fb)) by (apply lookup_None_In; exact Hkb).
    rewrite (proj2 (compareObjects_at _ _ _ _ _ k Hfa Hfb H) Hk).
    destruct (lookup fa k); [destruct (shouldIgnoreProperty _ _)|]; simpl; lia.
Qed.

(** C8. Between two plain objects (keys without duplicates), under every
    key of the result at most one of additions, deletions and updates holds
    a scalar entry (anything but a nested result map).  A key is under two
    or more of the maps only when it holds a plain object on both sides, the
    depth is below [maxDepth], and the entries are the nonempty parts of the
    nested result of that recursion, each of them a map. *)
Theorem key_partition :
  forall la lb fa fb c r k,
  NoDup (map fst fa) -> NoDup (map fst fb) ->
  internalDiff (VObj la fa) (VObj lb fb) c = Ok r ->
  (n_scalar (res_at r k) <= 1)%nat /\
  ((2 <= n_present (res_at r k))%nat ->
   n_scalar (res_at r k) = 0%nat /\
   exists va vb nr na nd nu,
     lookup fa k = Some va /\ lookup fb k = Some vb /\
     isPlainObject va = true /\ isPlainObject vb = true /\ below_maxDepth c = true /\
     internalDiff va vb (mkCtx (path c ++ [k]) (S (depth c)) (options c)) = Ok nr /\
     res_at r k = (opt_if na (additions nr), opt_if nd (deletions nr),
                   opt_if nu (updates nr))).
Proof.
  intros la lb fa fb c r k Hfa Hfb H.
  rewrite internalDiff_objects in H.
  destruct (compareObjects_key _ _ _ _ k Hfa Hfb H)
    as [Hle|(va & vb & nr & na & nd & nu & H1 & H2 & H3 & H4 & H5 & H6 &
              (ma & md & mu & Hnr) & H7)].
  - pose proof (n_scalar_le_present (res_at r k)); split; [lia|intros; lia].
  - assert (Hs : n_scalar (res_at r k) = 0%nat)
      by (rewrite H7, Hnr; destruct na, nd, nu; reflexivity).
    split; [lia|intros _; split; [exact Hs|]].
    exists va, vb, nr, na, nd, nu; repeat split; assumption.
Qed.


(** ** C3: ignored paths and the result maps *)

(** [p] is a key path through result maps: every step but the last goes
    through a map built by [compareObjects]. *)
Fixpoint map_path (o : out) (p : list string) {struct p} : Prop :=
  match p with
  | [] => False
  | k :: p' =>
      match o with
      | OMap m => exists o', lookup m k = Some o' /\ (p' = [] \/ map_path o' p')
      | _ => False
      end
  end.

(** The path of a key under the context [c], as [shouldIgnoreProperty] sees it. *)
Definition ignored_at (c : ComparisonContext) (p : list string) : bool :=
  shouldIgnoreProperty (String.concat "." (path c ++ p)) (ignoreProperties (options c)).

Definition paths_ok (c : ComparisonContext) (o : out) : Prop :=
  forall p, map_path o p -> ignored_at c p = false.

Definition result_ok (c : ComparisonContext) (r : DiffResult) : Prop :=
  paths_ok c (additions r) /\ paths_ok c (deletions r) /\ paths_ok c (updates r).

Definition maps_ok (c : ComparisonContext) (r : maps) : Prop :=
  paths_ok c (OMap (m_additions r)) /\ paths_ok c (OMap (m_deletions r)) /\
  paths_ok c (OMap (m_updates r)).

Lemma str_append_assoc (s1 s2 s3 : string) :
  (s1 ++ s2 ++ s3)%string = ((s1 ++ s2) ++ s3)%string.
Proof. induction s1 as [|a s1 IH]; simpl; [reflexivity|rewrite IH; reflexivity]. Qed.

Lemma concat_cons_cons sep x y l :
  String.concat sep (x :: y :: l) = (x ++ sep ++ String.concat sep (y :: l))%string.
Proof. reflexivity. Qed.

Lemma concat_snoc_cons sep x l k :
  String.concat sep ((x :: l) ++ [k]) = (String.concat sep (x :: l) ++ sep ++ k)%string.
Proof.
  revert x; induction l as [|y l IH]; intros x; [reflexivity|].
  change ((x :: y :: l) ++ [k]) with (x :: ((y :: l) ++ [k])).
  assert (E : String.concat sep (x :: ((y :: l) ++ [k])) =
              (x ++ sep ++ String.concat sep ((y :: l) ++ [k]))%string)
    by reflexivity.
  rewrite E, IH, concat_cons_cons.
  rewrite !str_append_assoc; reflexivity.
Qed.

Lemma currentPath_concat c k :
  currentPath c k = String.concat "." (path c ++ [k]).
Proof.
  unfold currentPath; destruct (path c) as [|x l]; [reflexivity|].
  rewrite concat_snoc_cons; reflexivity.
Qed.

Lemma ignored_at_key c k :
  shouldIgnoreProperty (currentPath c k) (ignoreProperties (options c)) = ignored_at c [k].
Proof. unfold ignored_at; rewrite currentPath_concat; reflexivity. Qed.

Lemma ignored_at_nested c k d p :
  ignored_at (mkCtx (path c ++ [k]) d (options c)) p = ignored_at c (k :: p).
Proof. unfold ignored_at; simpl; rewrite <- app_assoc; reflexivity. Qed.

Lemma map_path_map_set m k v k' p :
  map_path (OMap (map_set m k v)) (k' :: p) ->
  (k' = k /\ (p = [] \/ map_path v p)) \/ map_path (OMap m) (k' :: p).
Proof.
  simpl; intros [o' [Hl Hp]]; rewrite lookup_map_set in Hl.
  destruct (String.eqb k k') eqn:E.
  - apply String.eqb_eq in E; subst k'; injection Hl; intros <-; left; auto.
  - right; eauto.
Qed.

Lemma paths_ok_empty c : paths_ok c (OMap []).
Proof. intros [|k p]; simpl; [contradiction|]. intros [o [H _]]; discriminate. Qed.

Lemma map_path_no_map o p : (forall m, o <> OMap m) -> ~ map_path o p.
Proof.
  intros Ho; destruct p as [|k p]; simpl; [tauto|].
  destruct o; try tauto; exfalso; eapply Ho; reflexivity.
Qed.

Lemma paths_ok_no_map c o : (forall m, o <> OMap m) -> paths_ok c o.
Proof. intros Ho p Hp; exfalso; exact (map_path_no_map o p Ho Hp). Qed.

Lemma paths_ok_map_set c m k v :
  paths_ok c (OMap m) -> ignored_at c [k] = false ->
  (forall p, map_path v p -> ignored_at c (k :: p) = false) ->
  paths_ok c (OMap (map_set m k v)).
Proof.
  intros Hm Hk Hv [|k' p] H; [contradiction|].
  destruct (map_path_map_set _ _ _ _ _ H) as [[-> [->|Hp]]|H']; auto.
Qed.

Lemma paths_ok_map_set_scalar c m k v :
  paths_ok c (OMap m) -> ignored_at c [k] = false ->
  (forall m', v <> OMap m') -> paths_ok c (OMap (map_set m k v)).
Proof.
  intros Hm Hk Hv; apply paths_ok_map_set; auto.
  intros p Hp; exfalso; exact (map_path_no_map v p Hv Hp).
Qed.

Lemma compare_values_step_paths c k va vb r n a r' :
  ignored_at c [k] = false -> maps_ok c r ->
  (forall nr, n tt = Ok nr ->
     result_ok (mkCtx (path c ++ [k]) (S (depth c)) (options c)) nr) ->
  compare_values_step c k va vb r n a = Ok r' -> maps_ok c r'.
Proof.
  intros Hk [Ha [Hd Hu]] Hn; unfold compare_values_step.
  destruct (below_maxDepth c && isPlainObject va && isPlainObject vb).
  - destruct (n tt) as [nr|] eqn:E; [|discriminate]; simpl.
    destruct (Hn nr eq_refl) as [Na [Nd Nu]].
    destruct (has_keys (additions nr)) as [na|]; [|discriminate]; simpl.
    destruct (has_keys (deletions nr)) as [nd|]; [|discriminate]; simpl.
    destruct (has_keys (updates nr)) as [nu|]; [|discriminate]; simpl.
    intros H; injection H; intros <-.
    (split; [|split]); simpl;
      [destruct na|destruct nd|destruct nu]; auto;
      apply paths_ok_map_set; auto;
      intros p Hp; rewrite <- (ignored_at_nested c k (S (depth c))); auto.
  - destruct (comparePrimitives va vb (coercion c));
      destruct va, vb; simpl;
      try destruct (a _ _) as [[|]|]; intros H;
      try discriminate H; injection H; intros <-;
      try (split; auto; fail);
      ((split; [|split]); simpl; auto;
       apply paths_ok_map_set_scalar; auto; discriminate).
Qed.

Definition diff_paths_at (b : value) : Prop :=
  forall a c r, internalDiff a b c = Ok r -> result_ok c r.

Lemma keysB_loop_paths c fa fb r r' :
  Forall (fun kv => diff_paths_at (snd kv)) fb ->
  maps_ok c r -> keysB_loop internalDiff c fa fb r = Ok r' -> maps_ok c r'.
Proof.
  intros H; revert r; induction H as [|[k vb] fb Hvb Hfb IH]; simpl; intros r Hr.
  - intros E; injection E; intros <-; exact Hr.
  - destruct (keyB_step internalDiff c fa k vb r) as [r1|] eqn:E; [|discriminate].
    apply IH; clear IH; revert E; unfold keyB_step; rewrite ignored_at_key.
    destruct (ignored_at c [k]) eqn:Hk.
    { intros E; injection E; intros <-; exact Hr. }
    destruct (lookup fa k) as [va|].
    + apply compare_values_step_paths; auto.
      intros nr Hn; apply (Hvb va); exact Hn.
    + intros E; injection E; intros <-.
      destruct Hr as [Ha [Hd Hu]]; (split; [|split]); simpl; auto.
      apply paths_ok_map_set_scalar; auto; discriminate.
Qed.

Lemma deletions_loop_paths c fa fb d :
  paths_ok c (OMap d) -> paths_ok c (OMap (deletions_loop c fa fb d)).
Proof.
  revert d; induction fa as [|[k va] fa IH]; simpl; intros d Hd; [exact Hd|].
  apply IH; rewrite ignored_at_key.
  destruct (ignored_at c [k]) eqn:Hk; [exact Hd|].
  destruct (negb (has_key fb k)); [|exact Hd].
  apply paths_ok_map_set_scalar; auto; discriminate.
Qed.

Lemma internalDiff_paths b : diff_paths_at b.
Proof.
  induction b using value_ind';
    try (intros a c r; destruct a; simpl;
         repeat match goal with |- context [if ?t then _ else _] => destruct t end;
         intros E; injection E; intros <-;
         (split; [|split]); simpl;
         first [apply paths_ok_empty | apply paths_ok_no_map; discriminate]; fail).
  - intros a c r; destruct a as [| |? |? |? |? ? |? |la xa|? ?]; simpl;
      repeat match goal with |- context [if ?t then _ else _] => destruct t end;
      try destruct (compareArrays _ _ _ _) as [[|]|];
      intros E; try discriminate E; injection E; intros <-;
      (split; [|split]); simpl;
      first [apply paths_ok_empty | apply paths_ok_no_map; discriminate].
  - intros a c r; destruct a as [| |? |? |? |? ? |? |? ?|la fa]; simpl;
      repeat match goal with |- context [if ?t then _ else _] => destruct t end;
      try (intros E; injection E; intros <-;
           (split; [|split]); simpl;
           first [apply paths_ok_empty | apply paths_ok_no_map; discriminate]; fail).
    unfold compareObjects.
    destruct (keysB_loop _ _ _ _ _) as [r'|] eqn:E; [|discriminate].
    intros E'; injection E'; intros <-.
    apply (keysB_loop_paths _ _ _ _ _ H) in E.
    + exact E.
    + (split; [|split]); simpl; auto using paths_ok_empty, deletions_loop_paths.
Qed.

(** A key path of a JS object, through nested plain objects. *)
Fixpoint value_path (v : value) (p : list string) {struct p} : Prop :=
  match p with
  | [] => False
  | k :: p' =>
      match v with
      | VObj _ fs => exists v', lookup fs k = Some v' /\ (p' = [] \/ value_path v' p')
      | _ => False
      end
  end.

(** A key path of a result object as JavaScript sees it: through result
    maps, into the values stored whole, and through the [from]/[to] keys of
    an update record. *)
Fixpoint result_path (o : out) (p : list string) {struct p} : Prop :=
  match p with
  | [] => False
  | k :: p' =>
      match o with
      | OMap m => exists o', lookup m k = Some o' /\ (p' = [] \/ result_path o' p')
      | OVal v => value_path v p
      | OFromTo from to =>
          (k = "from" /\ (p' = [] \/ value_path from p')) \/
          (k = "to" /\ (p' = [] \/ value_path to p'))
      end
  end.

(** C3 (amended). A key path that matches an ignore pattern is never a key
    path of the result maps: not a key of [additions], [deletions] or
    [updates] when these are the maps built for two objects, nor a key of a
    map nested in them by the recursion.  Values the code stores whole (an
    added or deleted value, the two sides of an update [{from, to}], and the
    top-level results for [null]/[undefined] or for mismatched or opaque
    values) are not filtered, and an ignored path may appear inside them. *)
Theorem ignored_paths_not_in_result_maps :
  forall a b o r p,
  diff a b o = Ok r ->
  shouldIgnoreProperty (String.concat "." p) (ignoreProperties (mergeOptions o)) = true ->
  ~ map_path (additions r) p /\ ~ map_path (deletions r) p /\ ~ map_path (updates r) p.
Proof.
  intros a b o r p H Hign.
  destruct (internalDiff_paths b a _ r H) as [Ha [Hd Hu]].
  repeat split; intros Hp;
    [apply Ha in Hp | apply Hd in Hp | apply Hu in Hp];
    unfold ignored_at in Hp; cbn [path options app] in Hp; congruence.
Qed.


(** ** C1: [diff(v, v)] *)

Fixpoint nodup_keys (ks : list string) : bool :=
  match ks with
  | [] => true
  | k :: ks' => negb (existsb (String.eqb k) ks') && nodup_keys ks'
  end.

Lemma nodup_keys_NoDup ks : nodup_keys ks = true -> NoDup ks.
Proof.
  induction ks as [|k ks IH]; simpl; intros H; [constructor|].
  apply andb_true_iff in H as [Hk H]; constructor; [|auto].
  intros Hin; apply negb_true_iff in Hk.
  assert (existsb (String.eqb k) ks = true)
    by (apply existsb_exists; exists k; split; [exact Hin|apply String.eqb_refl]).
  congruence.
Qed.

(** The values that [diff] finds equal to themselves under the default
    options ([maxDepth = 10], order-sensitive arrays), for a value compared
    at depth [d]: no [NaN] is compared, every array element that is a
    non-array object is reached below the depth limit, and the keys of each
    object are distinct.  An element that is itself an array, and an object
    field past the depth limit, are compared by reference. *)
Fixpoint self_equal_at (d : nat) (v : value) {struct v} : bool :=
  match v with
  | VNum n => negb (isNaN n)
  | VArr _ xs =>
      forallb (fun x =>
        match x with
        | VArr _ _ => true
        | VObj _ _ => (d <? 10)%nat && self_equal_at (S d) x
        | VDate _ _ | VOther _ => (d <? 10)%nat
        | _ => self_equal_at d x
        end) xs
  | VObj _ fs =>
      nodup_keys (map fst fs) &&
      forallb (fun kv =>
        match snd kv with
        | VObj _ _ => if (d <? 10)%nat then self_equal_at (S d) (snd kv) else true
        | _ => self_equal_at d (snd kv)
        end) fs
  | _ => true
  end.

Lemma depth_lt_10 d : depth_lt d (Fin 10) = (d <? 10)%nat.
Proof.
  unfold depth_lt.
  destruct (Qle_bool 10 (inject_Z (Z.of_nat d))) eqn:E;
    destruct (Nat.ltb_spec d 10); try reflexivity; exfalso.
  - apply Qle_bool_iff in E; unfold Qle in E; simpl in E; lia.
  - assert (Hq : (10 <= inject_Z (Z.of_nat d))%Q) by (unfold Qle; simpl; lia).
    apply Qle_bool_iff in Hq; congruence.
Qed.

Lemma below_default c :
  options c = mergeOptions no_options -> below_maxDepth c = (depth c <? 10)%nat.
Proof. intros Ho; unfold below_maxDepth; rewrite Ho; apply depth_lt_10. Qed.

Lemma comparePrimitives_self x b :
  (forall n, x = VNum n -> isNaN n = false) -> comparePrimitives x x b = true.
Proof.
  intros Hx; unfold comparePrimitives.
  assert (H : strict_eq x x = true).
  { destruct x; simpl; try reflexivity;
      try apply Nat.eqb_refl; try apply String.eqb_refl; try apply Bool.eqb_reflx.
    destruct n as [| s | q]; simpl; [discriminate (Hx _ eq_refl)| |].
    - apply Bool.eqb_reflx.
    - apply Qeq_bool_iff; reflexivity. }
  rewrite H; reflexivity.
Qed.

Definition self_diff (v : value) : Prop :=
  forall c, options c = mergeOptions no_options -> self_equal_at (depth c) v = true ->
  internalDiff v v c = Ok empty_result /\
  match v with VArr _ xs => compareArrays internalDiff xs xs c = Ok true | _ => True end.

Lemma compare_in_order_self c l xs i :
  options c = mergeOptions no_options -> Forall self_diff xs ->
  self_equal_at (depth c) (VArr l xs) = true -> compare_in_order internalDiff c i xs xs = Ok true.
Proof.
  intros Ho Hxs; revert i; induction Hxs as [|x xs Hx Hxs IH]; intros i H;
    [reflexivity|].
  simpl in H; apply andb_true_iff in H as [H1 H2].
  assert (IH' : compare_in_order internalDiff c (S i) xs xs = Ok true)
    by (apply IH; simpl; exact H2).
  assert (Hdepth : below_maxDepth c = (depth c <? 10)%nat)
    by (apply below_default, Ho).
  assert (Hcp : comparePrimitives x x (coercion c) = true).
  { apply comparePrimitives_self; intros n E; subst x; simpl in H1.
    apply negb_true_iff, H1. }
  destruct x as [| |b|n|s|l' t|l'|l' ys|l' fs]; cbn -[comparePrimitives internalDiff];
    try (rewrite Hcp; exact IH').
  - rewrite Hdepth, H1; simpl.
    rewrite comparePrimitives_self by (intros; discriminate); exact IH'.
  - rewrite Hdepth, H1; simpl.
    rewrite comparePrimitives_self by (intros; discriminate); exact IH'.
  - apply andb_true_iff in H1 as [H1 H3].
    rewrite Hdepth, H1; cbn -[internalDiff].
    destruct (Hx (mkCtx (path c ++ [string_of_nat i]) (S (depth c)) (options c)))
      as [E _]; [exact Ho|exact H3|].
    rewrite E; exact IH'.
Qed.

Lemma deletions_loop_keys c l fb d :
  (forall k, In k (map fst l) -> has_key fb k = true) -> deletions_loop c l fb d = d.
Proof.
  revert d; induction l as [|[k x] l IH]; simpl; intros d H; [reflexivity|].
  rewrite (H k (or_introl eq_refl)); simpl.
  destruct (shouldIgnoreProperty _ _); apply IH; auto.
Qed.

Lemma keysB_loop_id c fa fb r :
  (forall k x, In (k, x) fb -> forall r0, keyB_step internalDiff c fa k x r0 = Ok r0) ->
  keysB_loop internalDiff c fa fb r = Ok r.
Proof.
  revert r; induction fb as [|[k x] fb IH]; simpl; intros r H; [reflexivity|].
  rewrite (H k x (or_introl eq_refl)); apply IH; auto.
Qed.

Lemma keyB_step_self c l fa k x r0 :
  options c = mergeOptions no_options ->
  self_equal_at (depth c) (VObj l fa) = true ->
  Forall (fun kv => self_diff (snd kv)) fa ->
  In (k, x) fa -> keyB_step internalDiff c fa k x r0 = Ok r0.
Proof.
  intros Ho H Hfa Hin; simpl in H; apply andb_true_iff in H as [Hnd H].
  assert (Hx : self_diff x)
    by (rewrite Forall_forall in Hfa; exact (Hfa (k, x) Hin)).
  assert (Hc : match x with
               | VObj _ _ => if (depth c <? 10)%nat then self_equal_at (S (depth c)) x
                             else true
               | _ => self_equal_at (depth c) x
               end = true)
    by (rewrite forallb_forall in H; exact (H (k, x) Hin)).
  unfold keyB_step.
  destruct (shouldIgnoreProperty _ _); [reflexivity|].
  rewrite (In_lookup _ _ _ (nodup_keys_NoDup _ Hnd) Hin).
  unfold compare_values_step; rewrite (below_default _ Ho).
  destruct x as [| |b|n|s|l' t|l'|l' ys|l' fs].
  8: { cbn [isPlainObject]; rewrite ?andb_false_r; simpl.
       destruct (Hx (mkCtx (path c ++ [k]) (depth c) (options c))) as [_ E];
         [exact Ho|exact Hc|].
       rewrite E; reflexivity. }
  8: { destruct (depth c <? 10)%nat; cbn -[internalDiff comparePrimitives].
       - destruct (Hx (mkCtx (path c ++ [k]) (S (depth c)) (options c))) as [E _];
           [exact Ho|exact Hc|].
         rewrite E; destruct r0; reflexivity.
       - rewrite comparePrimitives_self by (intros; discriminate); reflexivity. }
  all: cbn [isPlainObject]; rewrite ?andb_false_r; cbn -[comparePrimitives];
    rewrite comparePrimitives_self; [reflexivity|];
    intros n' E; first [discriminate E
                       | injection E; intros <-; simpl in Hc; apply negb_true_iff, Hc].
Qed.

Lemma compareObjects_self c l fa :
  options c = mergeOptions no_options ->
  self_equal_at (depth c) (VObj l fa) = true ->
  Forall (fun kv => self_diff (snd kv)) fa ->
  compareObjects internalDiff fa fa c = Ok empty_result.
Proof.
  intros Ho H Hfa; unfold compareObjects.
  rewrite deletions_loop_keys by (intros k Hk; apply has_key_In, Hk).
  rewrite keysB_loop_id; [reflexivity|].
  intros k x Hin r0; apply (keyB_step_self c l); assumption.
Qed.

Lemma internalDiff_self v : self_diff v.
Proof.
  induction v as [| |b|n|s|l t|l|l xs IH|l fs IH] using value_ind';
    intros c Ho H; split; try exact I.
  1-7: cbn -[comparePrimitives];
    try reflexivity;
    rewrite comparePrimitives_self; try reflexivity;
    intros n' E; first [discriminate E | injection E; intros <-; apply negb_true_iff, H].
  - assert (E : compareArrays internalDiff xs xs c = Ok true).
    { unfold compareArrays; rewrite Nat.eqb_refl; simpl.
      destruct (List.length xs =? 0)%nat; [reflexivity|].
      rewrite Ho; simpl; apply (compare_in_order_self c l); assumption. }
    simpl; rewrite E; reflexivity.
  - assert (E : compareArrays internalDiff xs xs c = Ok true).
    { unfold compareArrays; rewrite Nat.eqb_refl; simpl.
      destruct (List.length xs =? 0)%nat; [reflexivity|].
      rewrite Ho; simpl; apply (compare_in_order_self c l); assumption. }
    exact E.
  - rewrite internalDiff_objects; apply (compareObjects_self c l); assumption.
Qed.

(** C1 (amended). Under the default options, [diff(v, v)] returns empty
    additions, deletions and updates for every value [v] that satisfies
    [self_equal_at 0]: the keys of each object are distinct, no [NaN] is
    compared, and every array element that is a non-array object is reached
    at a depth below [maxDepth = 10].  The depth is 0 for the top-level value
    and grows by one each time the comparison enters a nested object, as an
    object field or as an array element.  An element that is itself an
    array, and an object field at depth 10 or more, are compared by
    reference and need nothing. *)
Theorem diff_identity :
  forall v, self_equal_at 0 v = true -> diff v v no_options = Ok empty_result.
Proof.
  intros v H; apply (internalDiff_self v); [reflexivity | exact H].
Qed.

(** ** C6: order-insensitive primitive arrays *)

Lemma str_leb_trans a b c :
  String.leb a b = true -> String.leb b c = true -> String.leb a c = true.
Proof.
  unfold String.leb; revert b c.
  induction a as [|x a IH]; intros [|y b] [|z c]; cbn; try discriminate; auto.
  unfold Ascii.compare in *.
  destruct (N.compare_spec (N_of_ascii x) (N_of_ascii y));
  destruct (N.compare_spec (N_of_ascii y) (N_of_ascii z));
  destruct (N.compare_spec (N_of_ascii x) (N_of_ascii z));
  try lia; try discriminate; auto.
  apply IH.
Qed.

Definition key_le (x y : value) : Prop := String.leb (sort_key x) (sort_key y) = true.
Definition str_le (s t : string) : Prop := String.leb s t = true.

Lemma insert_by_key_perm x l : Permutation (insert_by_key x l) (x :: l).
Proof.
  induction l as [|y l IH]; simpl; [reflexivity|].
  destruct (String.leb _ _); [reflexivity|].
  eapply perm_trans; [apply perm_skip, IH | apply perm_swap].
Qed.

Lemma isort_perm l : Permutation (fold_right insert_by_key [] l) l.
Proof.
  induction l as [|x l IH]; simpl; [reflexivity|].
  eapply perm_trans; [apply insert_by_key_perm | apply perm_skip, IH].
Qed.

Lemma key_le_flip x y : String.leb (sort_key x) (sort_key y) = false -> key_le y x.
Proof.
  unfold key_le; intros H.
  destruct (String.leb_total (sort_key x) (sort_key y)); congruence.
Qed.

Lemma insert_by_key_hd y x l :
  HdRel key_le y l -> key_le y x -> HdRel key_le y (insert_by_key x l).
Proof.
  intros Hh Hyx; destruct l as [|z l]; simpl; [constructor; exact Hyx|].
  destruct (String.leb _ _); constructor; [exact Hyx|].
  inversion Hh; assumption.
Qed.

Lemma insert_by_key_sorted x l : Sorted key_le l -> Sorted key_le (insert_by_key x l).
Proof.
  induction l as [|y l IH]; intros Hs; simpl; [repeat constructor|].
  apply Sorted_inv in Hs as [Hs Hh].
  destruct (String.leb _ _) eqn:E.
  - constructor; [constructor; assumption | constructor; exact E].
  - constructor; [apply IH, Hs|].
    apply insert_by_key_hd; [exact Hh | apply key_le_flip, E].
Qed.

Lemma isort_sorted l : Sorted key_le (fold_right insert_by_key [] l).
Proof.
  induction l; simpl; [constructor | apply insert_by_key_sorted; assumption].
Qed.

Lemma sorted_keys l : Sorted key_le l -> Sorted str_le (map sort_key l).
Proof.
  induction 1 as [|x l _ IH Hh]; simpl; constructor; [exact IH|].
  destruct Hh; simpl; constructor; assumption.
Qed.

Lemma str_le_trans : Transitive str_le.
Proof. intros s t u; apply str_leb_trans. Qed.

Lemma sorted_perm_eq s1 s2 :
  StronglySorted str_le s1 -> StronglySorted str_le s2 -> Permutation s1 s2 -> s1 = s2.
Proof.
  revert s2; induction s1 as [|a s1 IH]; intros s2 H1 H2 Hp.
  - symmetry; apply Permutation_nil, Hp.
  - destruct s2 as [|b s2]; [apply Permutation_sym, Permutation_nil in Hp; discriminate|].
    apply StronglySorted_inv in H1 as [H1 F1]; apply StronglySorted_inv in H2 as [H2 F2].
    assert (Hab : a = b).
    { assert (Ha : In a (b :: s2)) by (eapply Permutation_in; [exact Hp | left; reflexivity]).
      assert (Hb : In b (a :: s1)) by (eapply Permutation_in; [apply Permutation_sym, Hp | left; reflexivity]).
      destruct Ha as [Ha|Ha]; [congruence|]; destruct Hb as [Hb|Hb]; [congruence|].
      apply String.leb_antisym.
      - exact (proj1 (Forall_forall _ _) F1 b Hb).
      - exact (proj1 (Forall_forall _ _) F2 a Ha). }
    subst b; f_equal; apply IH; [exact H1 | exact H2 | eapply Permutation_cons_inv; exact Hp].
Qed.

Lemma Permutation_filter_bool (f : value -> bool) l1 l2 :
  Permutation l1 l2 -> Permutation (filter f l1) (filter f l2).
Proof.
  induction 1; simpl.
  - constructor.
  - destruct (f x); [apply perm_skip|]; assumption.
  - destruct (f x), (f y); try constructor; reflexivity.
  - eapply perm_trans; eassumption.
Qed.

Lemma isort_keys l1 l2 :
  Permutation l1 l2 ->
  map sort_key (fold_right insert_by_key [] l1) = map sort_key (fold_right insert_by_key [] l2).
Proof.
  intros Hp; apply sorted_perm_eq.
  1, 2: apply Sorted_StronglySorted; [exact str_le_trans | apply sorted_keys, isort_sorted].
  apply Permutation_map.
  eapply perm_trans; [apply isort_perm|].
  eapply perm_trans; [exact Hp | apply Permutation_sym, isort_perm].
Qed.

Lemma compare_sorted_app c (xs ys xs' ys' : list value) :
  List.length xs = List.length ys ->
  compare_sorted c (xs ++ xs')%list (ys ++ ys')%list = compare_sorted c xs ys && compare_sorted c xs' ys'.
Proof.
  revert ys; induction xs as [|x xs IH]; intros [|y ys] Hl; simpl in *;
    try discriminate; [reflexivity|].
  rewrite IH by lia; apply andb_assoc.
Qed.

Lemma compare_sorted_undefined c xs ys :
  (forall x, In x xs -> is_undefined x = true) ->
  (forall y, In y ys -> is_undefined y = true) ->
  compare_sorted c xs ys = true.
Proof.
  revert ys; induction xs as [|x xs IH]; intros [|y ys] Hx Hy; simpl; try reflexivity.
  pose proof (Hx x (or_introl eq_refl)) as Ux; pose proof (Hy y (or_introl eq_refl)) as Uy.
  destruct x, y; try discriminate; simpl.
  apply IH; intros; [apply Hx | apply Hy]; right; assumption.
Qed.

Lemma compare_sorted_keys c (P : value -> Prop) :
  (forall x y, P x -> P y -> sort_key x = sort_key y -> comparePrimitives x y c = true) ->
  forall xs ys, Forall P xs -> Forall P ys -> map sort_key xs = map sort_key ys ->
  compare_sorted c xs ys = true.
Proof.
  intros Hc xs; induction xs as [|x xs IH]; intros [|y ys] Fx Fy Hk; simpl in *;
    try reflexivity; try discriminate.
  inversion Fx; inversion Fy; injection Hk as Hk Hks; subst.
  rewrite Hc by assumption; apply IH; assumption.
Qed.

Lemma num_eqb_refl n : isNaN n = false -> num_eqb n n = true.
Proof.
  destruct n as [| s | q]; simpl; intros H; try discriminate.
  - apply Bool.eqb_reflx.
  - apply Qeq_bool_iff; reflexivity.
Qed.

(** Two elements of a primitive array with the same string conversion are
    equal for [comparePrimitives] with coercion, when the array holds no
    [NaN], not both [null] and ["null"], and the runtime reads back the
    numbers it prints. *)
Lemma same_key_equal arr x y :
  forallb non_object arr = true ->
  ~ In (VNum NaN) arr ->
  ~ (In VNull arr /\ In (VStr "null") arr) ->
  (forall n, In (VNum n) arr -> Number_of_string (String_of_number n) = n) ->
  isNaN (Number_of_string "null") = true ->
  isNaN (Number_of_string "true") = true ->
  isNaN (Number_of_string "false") = true ->
  In x arr -> In y arr -> is_undefined x = false -> is_undefined y = false ->
  sort_key x = sort_key y -> comparePrimitives x y true = true.
Proof.
  intros Hprim Hnan Hnull Hround Hwn Hwt Hwf Hx Hy Ux Uy K.
  assert (Hno : forall v, In v arr -> non_object v = true)
    by (intros v Hv; exact (proj1 (forallb_forall _ _) Hprim v Hv)).
  assert (Hfin : forall n, In (VNum n) arr -> isNaN n = false)
    by (intros [| |] Hn; [contradiction | reflexivity | reflexivity]).
  assert (Hw : forall n w, In (VNum n) arr -> String_of_number n = w ->
                 isNaN (Number_of_string w) = true -> False).
  { intros n w Hn E Hi; rewrite <- E, Hround in Hi by exact Hn.
    rewrite (Hfin n Hn) in Hi; discriminate. }
  pose proof (Hno _ Hx) as Nx; pose proof (Hno _ Hy) as Ny.
  destruct x as [| | b | n | s | ? ? | ? | ? ? | ? ?]; try discriminate;
  destruct y as [| | b' | m | s' | ? ? | ? | ? ? | ? ?]; try discriminate;
  simpl in K.
  all: try (destruct b; discriminate); try (destruct b'; discriminate);
       try (destruct b, b'; discriminate).
  - reflexivity.
  - exfalso; exact (Hw m _ Hy (eq_sym K) Hwn).
  - subst s'; exfalso; exact (Hnull (conj Hx Hy)).
  - destruct b, b'; try discriminate; reflexivity.
  - exfalso; destruct b; [exact (Hw m _ Hy (eq_sym K) Hwt) | exact (Hw m _ Hy (eq_sym K) Hwf)].
  - destruct b; subst s'; reflexivity.
  - exfalso; exact (Hw n _ Hx K Hwn).
  - exfalso; destruct b'; [exact (Hw n _ Hx K Hwt) | exact (Hw n _ Hx K Hwf)].
  - assert (n = m) by (rewrite <- (Hround n Hx), <- (Hround m Hy), K; reflexivity); subst m.
    apply comparePrimitives_self; intros n' E; injection E as <-; apply Hfin, Hx.
  - subst s'; rewrite comparePrimitives_num_str, (Hround n Hx), (Hfin n Hx).
    apply num_eqb_refl, Hfin, Hx.
  - subst s; exfalso; exact (Hnull (conj Hy Hx)).
  - destruct b'; subst s; reflexivity.
  - subst s; rewrite comparePrimitives_str_num, (Hround m Hy), (Hfin m Hy).
    apply num_eqb_refl, Hfin, Hy.
  - subst s'; apply comparePrimitives_self; discriminate.
Qed.

Lemma compareArrays_unordered f xs ys c :
  truthy (arrayOrderMatters (options c)) = false ->
  forallb non_object xs = true -> forallb non_object ys = true ->
  List.length xs = List.length ys ->
  compareArrays f xs ys c =
  Ok (compare_sorted (coercion c) (default_sort xs) (default_sort ys)).
Proof.
  intros Ho Hx Hy Hl; unfold compareArrays.
  rewrite Hl, Nat.eqb_refl; simpl.
  destruct ys as [|y ys]; [destruct xs; [reflexivity | discriminate]|].
  simpl List.length; cbn match; rewrite Ho, Hx, Hy; reflexivity.
Qed.

Lemma diff_single_arrays k l1 l2 la lb xs ys o :
  shouldIgnoreProperty k (ignoreProperties (mergeOptions o)) = false ->
  compareArrays internalDiff xs ys (mkCtx [k] 0 (mergeOptions o)) = Ok true ->
  diff (VObj l1 [(k, VArr la xs)]) (VObj l2 [(k, VArr lb ys)]) o = Ok empty_result.
Proof.
  intros Hign Ha; unfold diff.
  rewrite internalDiff_objects; unfold compareObjects, keyB_step, currentPath.
  change (ignoreProperties (mergeOptions o))
    with (spread (Some []) (opt_ignoreProperties o)) in Hign.
  assert (Hc : currentPath (mkCtx [] 0 (mergeOptions o)) k = k) by reflexivity.
  cbn -[compareArrays internalDiff]; unfold keyB_step; rewrite Hc.
  cbn -[compareArrays internalDiff]; rewrite Hign, String.eqb_refl.
  cbn -[compareArrays internalDiff]; unfold compare_values_step.
  destruct (below_maxDepth _); cbn -[compareArrays internalDiff]; rewrite Ha; reflexivity.
Qed.

Lemma in_isort_filter (arr : list value) v :
  In v (fold_right insert_by_key [] (filter (fun v => negb (is_undefined v)) arr)) ->
  In v arr /\ is_undefined v = false.
Proof.
  intros Hv; apply (Permutation_in _ (isort_perm _)), filter_In in Hv as [Hv Hu].
  split; [exact Hv | destruct (is_undefined v); [discriminate | reflexivity]].
Qed.

(** C6, amended.  For a primitive array [arr] with no [NaN] that does not
    hold both [null] and ["null"], and a runtime whose [Number] reads back
    the numbers [String] prints and reads ["null"], ["true"] and ["false"]
    as [NaN], every permutation [parr] of [arr] gives
    [diff({x: arr}, {x: parr}, {arrayOrderMatters: false})] with empty
    updates (and empty additions and deletions). *)
Theorem unordered_primitive_arrays :
  forall arr parr l1 l2 la lb,
  Permutation arr parr ->
  forallb non_object arr = true ->
  ~ In (VNum NaN) arr ->
  ~ (In VNull arr /\ In (VStr "null") arr) ->
  (forall n, In (VNum n) arr -> Number_of_string (String_of_number n) = n) ->
  isNaN (Number_of_string "null") = true ->
  isNaN (Number_of_string "true") = true ->
  isNaN (Number_of_string "false") = true ->
  diff (VObj l1 [("x", VArr la arr)]) (VObj l2 [("x", VArr lb parr)]) unordered_options
  = Ok empty_result.
Proof.
  intros arr parr l1 l2 la lb Hp Hprim Hnan Hnull Hround Hwn Hwt Hwf.
  apply diff_single_arrays; [reflexivity|].
  assert (Hin : forall v, In v parr -> In v arr)
    by (intros v Hv; eapply Permutation_in; [apply Permutation_sym, Hp | exact Hv]).
  assert (Hprim' : forallb non_object parr = true).
  { apply forallb_forall; intros v Hv; exact (proj1 (forallb_forall _ _) Hprim v (Hin v Hv)). }
  rewrite compareArrays_unordered by
    first [reflexivity | assumption | apply Permutation_length, Hp].
  f_equal; change (coercion _) with true; unfold default_sort.
  assert (Hk := isort_keys _ _ (Permutation_filter_bool (fun v => negb (is_undefined v)) _ _ Hp)).
  assert (Hl := f_equal (@List.length _) Hk); rewrite !length_map in Hl.
  rewrite compare_sorted_app by exact Hl.
  apply andb_true_intro; split.
  - apply (compare_sorted_keys true (fun v => In v arr /\ is_undefined v = false)).
    + intros x y [Hx Ux] [Hy Uy] K; exact (same_key_equal arr x y Hprim Hnan Hnull Hround Hwn Hwt Hwf Hx Hy Ux Uy K).
    + apply Forall_forall; intros v Hv; exact (in_isort_filter _ _ Hv).
    + apply Forall_forall; intros v Hv; apply in_isort_filter in Hv as [Hv Uv].
      split; [apply Hin, Hv | exact Uv].
    + exact Hk.
  - apply compare_sorted_undefined; intros v Hv; apply filter_In in Hv; tauto.
Qed.

(** ** C9: the engine writes only to objects it allocates *)

(** [ext ok h h']: from [h] to [h'], every write went to a location of [ok]
    or to one allocated after [h], and every other object of [h] is as it
    was. *)
Definition ext (ok : loc -> Prop) (h h' : heap) : Prop :=
  (next h <= next h')%nat /\
  (exists w, written h' = w ++ written h /\ forall l, In l w -> ok l \/ (next h <= l)%nat) /\
  (forall l, (l < next h)%nat -> ~ ok l -> cell_lookup (cells h') l = cell_lookup (cells h) l).

Definition preserves {A} (ok : loc -> Prop) (m : M A) : Prop :=
  forall h x h', m h = Some (x, h') -> ext ok h h'.

Definition no_loc : loc -> Prop := fun _ => False.

Lemma ext_refl ok h : ext ok h h.
Proof. split; [lia | split; [exists []; split; [reflexivity | contradiction] | reflexivity]]. Qed.

Lemma ext_seq ok ok' h0 h1 h2 :
  ext ok h0 h1 -> ext ok' h1 h2 -> (forall l, ok' l -> ok l \/ (next h0 <= l)%nat) ->
  ext ok h0 h2.
Proof.
  intros (N1 & (w1 & W1 & F1) & C1) (N2 & (w2 & W2 & F2) & C2) Hok.
  split; [lia|split].
  - exists (w2 ++ w1); split; [rewrite W2, W1, app_assoc; reflexivity|].
    intros l Hl; apply in_app_or in Hl as [Hl|Hl]; [|apply F1, Hl].
    destruct (F2 l Hl) as [H|H]; [apply Hok, H | right; lia].
  - intros l Hl Hn; rewrite C2; [apply C1; assumption | lia |].
    intros H; destruct (Hok l H); [contradiction | lia].
Qed.

Lemma ext_weaken ok ok' h h' : (forall l, ok l -> ok' l) -> ext ok h h' -> ext ok' h h'.
Proof.
  intros Hok (N & (w & W & F) & C); split; [exact N|split].
  - exists w; split; [exact W|]; intros l Hl; destruct (F l Hl); [left; apply Hok|right]; assumption.
  - intros l Hl Hn; apply C; [exact Hl | intros H; apply Hn, Hok, H].
Qed.

Lemma bind_run {A B} (m : M A) (k : A -> M B) h y h'' :
  bindM m k h = Some (y, h'') -> exists x h', m h = Some (x, h') /\ k x h' = Some (y, h'').
Proof. unfold bindM; destruct (m h) as [[x h']|]; [eauto | discriminate]. Qed.

Ltac run_bind H :=
  let x := fresh "x" in let h := fresh "h" in let H1 := fresh "R" in
  apply bind_run in H as (x & h & H1 & H).

Lemma preserves_ret {A} ok (x : A) : preserves ok (retM x).
Proof. intros h y h' H; injection H as _ <-; apply ext_refl. Qed.

Lemma preserves_bind {A B} ok (m : M A) (k : A -> M B) :
  preserves ok m -> (forall x, preserves ok (k x)) -> preserves ok (bindM m k).
Proof.
  intros Hm Hk h y h'' H; run_bind H.
  eapply ext_seq; [eapply Hm, R | eapply Hk, H | left; assumption].
Qed.

Lemma preserves_no_loc {A} ok (m : M A) : preserves no_loc m -> preserves ok m.
Proof. intros Hm h x h' H; eapply ext_weaken, Hm, H; contradiction. Qed.

Lemma cell_lookup_update cs l o l' :
  cell_lookup (cell_update cs l o) l' =
  if (l' =? l)%nat then option_map (fun _ => o) (cell_lookup cs l) else cell_lookup cs l'.
Proof.
  induction cs as [|[l1 o1] cs IH].
  - simpl; destruct (l' =? l)%nat; reflexivity.
  - unfold cell_update in *; cbn [map fst].
    destruct (l1 =? l)%nat eqn:E1; cbn [cell_lookup]; rewrite IH.
    + apply Nat.eqb_eq in E1; subst l1.
      destruct (Nat.eqb_spec l l'), (Nat.eqb_spec l' l); subst; try congruence;
        rewrite ?Nat.eqb_refl; reflexivity.
    + rewrite E1.
      destruct (Nat.eqb_spec l1 l'), (Nat.eqb_spec l' l); subst;
        rewrite ?Nat.eqb_refl in E1; try congruence; reflexivity.
Qed.

Lemma alloc_run o h l h' :
  alloc o h = Some (l, h') ->
  l = next h /\ h' = mkHeap (S (next h)) ((next h, o) :: cells h) (written h).
Proof. unfold alloc; intros H; injection H as <- <-; split; reflexivity. Qed.

Lemma alloc_ext o : preserves no_loc (alloc o).
Proof.
  intros h l h' H; apply alloc_run in H as [-> ->].
  split; [simpl; lia | split; [exists []; split; [reflexivity | contradiction]|]].
  intros l Hl _; simpl; replace (next h =? l)%nat with false by (symmetry; apply Nat.eqb_neq; lia).
  reflexivity.
Qed.

Lemma write_ext l h h' cs :
  (forall l', l' <> l -> cell_lookup cs l' = cell_lookup (cells h) l') ->
  h' = mkHeap (next h) cs (l :: written h) -> ext (fun x => x = l) h h'.
Proof.
  intros Hc ->; split; [simpl; lia | split].
  - exists [l]; split; [reflexivity|]; intros x [<-|[]]; left; reflexivity.
  - intros l' _ Hn; apply Hc; intros ->; apply Hn; reflexivity.
Qed.

Lemma set_prop_ext l key v : preserves (fun x => x = l) (set_prop (HRef l) key v).
Proof.
  intros h u h' H; unfold set_prop in H.
  destruct (cell_lookup (cells h) l) as [[fs|]|]; try discriminate.
  injection H as _ <-; eapply write_ext; [|reflexivity].
  intros l' Hl'; rewrite cell_lookup_update; apply Nat.eqb_neq in Hl'; rewrite Hl'; reflexivity.
Qed.

Lemma sort_in_place_ext l : preserves (fun x => x = l) (sort_in_place (HRef l)).
Proof.
  intros h u h' H; unfold sort_in_place in H.
  destruct (cell_lookup (cells h) l) as [[|xs]|]; try discriminate.
  injection H as _ <-; eapply write_ext; [|reflexivity].
  intros l' Hl'; rewrite cell_lookup_update; apply Nat.eqb_neq in Hl'; rewrite Hl'; reflexivity.
Qed.

Definition readonly {A} (m : M A) : Prop := forall h x h', m h = Some (x, h') -> h' = h.

Lemma readonly_preserves {A} ok (m : M A) : readonly m -> preserves ok m.
Proof. intros Hm h x h' H; rewrite (Hm _ _ _ H); apply ext_refl. Qed.

Lemma get_prop_readonly t key : readonly (get_prop t key).
Proof.
  intros h x h' H; unfold get_prop in H.
  destruct t as [v|l]; [destruct v|destruct (cell_lookup _ l) as [[]|]]; try discriminate;
    injection H as _ <-; reflexivity.
Qed.

Lemma keys_nonempty_readonly t : readonly (keys_nonempty t).
Proof.
  intros h x h' H; unfold keys_nonempty in H.
  destruct t as [v|l]; [destruct (value_has_keys v)|destruct (cell_lookup _ l) as [[]|]];
    try discriminate; injection H as _ <-; reflexivity.
Qed.

Lemma read_array_readonly t : readonly (read_array t).
Proof.
  intros h x h' H; unfold read_array in H.
  destruct t as [v|l]; [destruct v|destruct (cell_lookup _ l) as [[]|]]; try discriminate;
    injection H as _ <-; reflexivity.
Qed.

Lemma readonly_bind {A B} (m : M A) (k : A -> M B) :
  readonly m -> (forall x, readonly (k x)) -> readonly (bindM m k).
Proof.
  intros Hm Hk h y h'' H; run_bind H.
  rewrite (Hk _ _ _ _ H); exact (Hm _ _ _ R).
Qed.

Lemma readonly_ret {A} (x : A) : readonly (retM x).
Proof. intros h y h' H; injection H as _ <-; reflexivity. Qed.

Lemma result_nonempty_st_readonly r : readonly (result_nonempty_st r).
Proof.
  unfold result_nonempty_st.
  repeat first [ apply readonly_bind | apply get_prop_readonly | apply keys_nonempty_readonly
               | apply readonly_ret | intros [|] ].
Qed.

(** An allocation followed by writes to the new object only *)
Lemma alloc_then o ok (k : loc -> M unit) h u h' :
  (forall h1 u' h2 , k (next h) h1 = Some (u', h2) -> ext ok h1 h2) ->
  (forall l, ok l -> (next h <= l)%nat) ->
  bindM (alloc o) k h = Some (u, h') -> ext no_loc h h'.
Proof.
  intros Hk Hok H; run_bind H.
  pose proof (alloc_ext _ _ _ _ R) as E1; apply alloc_run in R as [-> ->].
  eapply ext_seq; [exact E1 | eapply Hk, H | intros l Hl; right; apply Hok, Hl].
Qed.

Lemma sorted_copy_ext xs : preserves no_loc (sorted_copy xs).
Proof.
  intros h ys h' H; unfold sorted_copy in H; run_bind H.
  pose proof (alloc_ext _ _ _ _ R) as E1; apply alloc_run in R as [-> ->].
  run_bind H; apply read_array_readonly in H; subst h'.
  eapply ext_seq; [exact E1 | eapply sort_in_place_ext; eassumption | intros l ->; right; simpl; lia].
Qed.

Lemma new_from_to_ext a b : preserves no_loc (new_from_to a b).
Proof.
  intros h t h' H; unfold new_from_to in H; run_bind H.
  eapply ext_seq; [eapply alloc_ext, R | apply (preserves_ret no_loc _ _ _ _ H) | auto].
Qed.

Lemma set_update_record_ext r a b : preserves (fun x => x = r) (set_update_record (HRef r) a b).
Proof.
  intros h u h' H; unfold set_update_record in H; run_bind H.
  eapply ext_seq; [eapply ext_weaken, new_from_to_ext, R; contradiction
                  | eapply set_prop_ext, H | auto].
Qed.

Definition result_cell (h : heap) (r la ld lu : loc) : Prop :=
  cell_lookup (cells h) r =
  Some (HObj [("additions", HRef la); ("deletions", HRef ld); ("updates", HRef lu)]).

Definition ok3 (la ld lu : loc) : loc -> Prop := fun x => x = la \/ x = ld \/ x = lu.

Lemma new_result_run h :
  new_result h =
  Some (HRef (S (S (S (next h)))),
        mkHeap (S (S (S (S (next h)))))
          ((S (S (S (next h))), HObj [("additions", HRef (next h));
                                     ("deletions", HRef (S (next h)));
                                     ("updates", HRef (S (S (next h))))])
           :: (S (S (next h)), HObj []) :: (S (next h), HObj []) :: (next h, HObj [])
           :: cells h)
          (written h)).
Proof. reflexivity. Qed.

Lemma set_in_field_ext h r la ld lu field key v u h' :
  result_cell h r la ld lu ->
  set_in_field (HRef r) field key v h = Some (u, h') -> ext (ok3 la ld lu) h h'.
Proof.
  intros Hc H; unfold set_in_field in H; run_bind H.
  unfold get_prop in R; rewrite Hc in R; cbn [lookup] in R.
  destruct ("additions" =? field); [|destruct ("deletions" =? field); [|destruct ("updates" =? field)]];
    injection R as <- <-; try discriminate;
    (eapply ext_weaken; [|eapply set_prop_ext, H]); intros l ->; unfold ok3; tauto.
Qed.

Lemma copy_nonempty_ext h r la ld lu nested field key u h' :
  result_cell h r la ld lu ->
  copy_nonempty (HRef r) nested field key h = Some (u, h') -> ext (ok3 la ld lu) h h'.
Proof.
  intros Hc H; unfold copy_nonempty in H; run_bind H; run_bind H.
  apply get_prop_readonly in R; apply keys_nonempty_readonly in R0; subst.
  destruct x0; [eapply set_in_field_ext; eassumption | eapply preserves_ret, H].
Qed.

Definition pres_if {A} (P : heap -> Prop) (ok : loc -> Prop) (m : M A) : Prop :=
  forall h x h', P h -> m h = Some (x, h') -> ext ok h h' /\ P h'.

Lemma pres_if_bind {A B} P ok (m : M A) (k : A -> M B) :
  pres_if P ok m -> (forall x, pres_if P ok (k x)) -> pres_if P ok (bindM m k).
Proof.
  intros Hm Hk h y h'' HP H; run_bind H.
  destruct (Hm _ _ _ HP R) as [E1 P1]; destruct (Hk _ _ _ _ P1 H) as [E2 P2].
  split; [eapply ext_seq; [exact E1 | exact E2 | left; assumption] | exact P2].
Qed.

Lemma pres_if_ret {A} P ok (x : A) : pres_if P ok (retM x).
Proof. intros h y h' HP H; injection H as _ <-; split; [apply ext_refl | exact HP]. Qed.

Lemma new_result_ext h :
  ext no_loc h (mkHeap (S (S (S (S (next h)))))
          ((S (S (S (next h))), HObj [("additions", HRef (next h));
                                     ("deletions", HRef (S (next h)));
                                     ("updates", HRef (S (S (next h))))])
           :: (S (S (next h)), HObj []) :: (S (next h), HObj []) :: (next h, HObj [])
           :: cells h)
          (written h)).
Proof.
  split; [simpl; lia | split; [exists []; split; [reflexivity | contradiction]|]].
  intros l Hl _; cbn [cells cell_lookup].
  repeat (rewrite (proj2 (Nat.eqb_neq _ _)) by lia); reflexivity.
Qed.

Section ResultInv.
Variables r la ld lu : loc.
Hypothesis Hr : ~ ok3 la ld lu r.

Definition Pres (h : heap) : Prop := result_cell h r la ld lu /\ (r < next h)%nat.

Lemma pres_transport h h' : Pres h -> ext (ok3 la ld lu) h h' -> Pres h'.
Proof.
  intros [Hc Hn] (N & _ & C); split; [|lia].
  unfold result_cell; rewrite C; assumption.
Qed.

Lemma pres_lift {A} (m : M A) : preserves no_loc m -> pres_if Pres (ok3 la ld lu) m.
Proof.
  intros Hm h x h' HP H.
  assert (E : ext (ok3 la ld lu) h h') by (eapply ext_weaken, Hm, H; contradiction).
  split; [exact E | eapply pres_transport; eassumption].
Qed.

Lemma set_in_field_pres field key v : pres_if Pres (ok3 la ld lu) (set_in_field (HRef r) field key v).
Proof.
  intros h u h' [Hc Hn] H.
  assert (E : ext (ok3 la ld lu) h h') by (eapply set_in_field_ext; eassumption).
  split; [exact E | eapply pres_transport; [split|]; eassumption].
Qed.

Lemma copy_nonempty_pres nested field key :
  pres_if Pres (ok3 la ld lu) (copy_nonempty (HRef r) nested field key).
Proof.
  intros h u h' [Hc Hn] H.
  assert (E : ext (ok3 la ld lu) h h') by (eapply copy_nonempty_ext; eassumption).
  split; [exact E | eapply pres_transport; [split|]; eassumption].
Qed.

End ResultInv.

Ltac split_cases :=
  match goal with
  | |- _ _ _ (if ?b then _ else _) => destruct b
  | |- _ _ _ (match ?x with _ => _ end) => destruct x
  | |- _ _ (if ?b then _ else _) => destruct b
  | |- _ _ (match ?x with _ => _ end) => destruct x
  end.

Section LoopsSt.
Variable idf : value -> value -> ComparisonContext -> M hval.
Hypothesis Hidf : forall a b c, preserves no_loc (idf a b c).

Lemma compare_in_order_st_ext c i xs ys : preserves no_loc (compare_in_order_st idf c i xs ys).
Proof.
  revert i xs; induction ys as [|y ys IH]; intros i [|x xs]; simpl; try apply preserves_ret.
  repeat first [ apply preserves_ret | apply IH | split_cases
               | apply preserves_bind; [apply Hidf | intros ?]
               | apply preserves_bind;
                   [apply readonly_preserves, result_nonempty_st_readonly | intros ?] ].
Qed.

Lemma compareArrays_st_ext xs ys c : preserves no_loc (compareArrays_st idf xs ys c).
Proof.
  unfold compareArrays_st.
  repeat first [ apply preserves_ret | apply compare_in_order_st_ext | split_cases
               | apply preserves_bind; [apply sorted_copy_ext | intros ?] ].
Qed.

Section WithResult.
Variables r la ld lu : loc.
Hypothesis Hr : ~ ok3 la ld lu r.

Ltac solve_pres :=
  repeat first [ apply pres_if_ret | apply set_in_field_pres | apply copy_nonempty_pres
               | exact Hr
               | apply pres_lift; try exact Hr; first [apply Hidf | apply compareArrays_st_ext
                                                      | apply new_from_to_ext]
               | apply pres_if_bind; [|intros ?] | split_cases ].

Lemma keyB_step_pres c objA key vb :
  pres_if (Pres r la ld lu) (ok3 la ld lu) (keyB_step_st idf c objA key vb (HRef r)).
Proof. unfold keyB_step_st; solve_pres. Qed.

Lemma keysB_loop_pres c objA keysB :
  pres_if (Pres r la ld lu) (ok3 la ld lu) (keysB_loop_st idf c objA keysB (HRef r)).
Proof.
  induction keysB as [|[k v] keysB IH]; simpl; [apply pres_if_ret|].
  apply pres_if_bind; [apply keyB_step_pres | intros _; exact IH].
Qed.

Lemma deletions_loop_pres c keysA objB :
  pres_if (Pres r la ld lu) (ok3 la ld lu) (deletions_loop_st c keysA objB (HRef r)).
Proof.
  induction keysA as [|[k v] keysA IH]; simpl; [apply pres_if_ret|].
  apply pres_if_bind; [solve_pres | intros _; exact IH].
Qed.

End WithResult.

Lemma compareObjects_st_ext objA objB c : preserves no_loc (compareObjects_st idf objA objB c).
Proof.
  intros h res h' H; unfold compareObjects_st in H; run_bind H.
  rewrite new_result_run in R; injection R as <- <-.
  set (n := next h) in *.
  assert (Hr : ~ ok3 n (S n) (S (S n)) (S (S (S n)))) by (unfold ok3; lia).
  assert (P0 : Pres (S (S (S n))) n (S n) (S (S n))
                 (mkHeap (S (S (S (S n))))
                    ((S (S (S n)), HObj [("additions", HRef n); ("deletions", HRef (S n));
                                        ("updates", HRef (S (S n)))])
                     :: (S (S n), HObj []) :: (S n, HObj []) :: (n, HObj []) :: cells h)
                    (written h))).
  { split; [unfold result_cell; cbn; rewrite Nat.eqb_refl; reflexivity | simpl; lia]. }
  run_bind H; destruct (deletions_loop_pres _ _ _ _ Hr _ _ _ _ _ _ P0 R) as [E1 P1].
  run_bind H; destruct (keysB_loop_pres _ _ _ _ Hr _ _ _ _ _ _ P1 R0) as [E2 P2].
  injection H as _ <-.
  eapply ext_seq; [apply new_result_ext|
                   eapply ext_seq; [exact E1 | exact E2 | left; assumption]|].
  intros l Hl; right; unfold ok3 in Hl; subst n; lia.
Qed.

End LoopsSt.

Lemma internalDiff_st_ext fuel : forall a b c, preserves no_loc (internalDiff_st fuel a b c).
Proof.
  induction fuel as [|fuel IH]; intros a b c h res h' H; [discriminate|].
  simpl in H; run_bind H; rewrite new_result_run in R; injection R as <- <-.
  match type of H with
  | ?m _ = Some _ =>
      assert (Hb : preserves (fun x => x = S (S (S (next h)))) m)
  end.
  { repeat first [ apply preserves_ret | apply set_update_record_ext | apply set_prop_ext
                 | apply preserves_no_loc; first [apply compareArrays_st_ext, IH
                                                 | apply compareObjects_st_ext, IH]
                 | split_cases | apply preserves_bind; [|intros ?] ]. }
  eapply ext_seq; [apply new_result_ext | exact (Hb _ _ _ H) | intros l ->; right; simpl; lia].
Qed.

(** C9. Whenever [diff] returns (with any fuel), every write of the call,
    property writes and in-place sorts alike, went to an object the call
    allocated: none went to an object or array of the inputs, however
    deeply nested, and every object that existed before the call is as it
    was.  The caller's options are only read, by the spread into a new
    merged object ([mergeOptions]); the arrays sorted for order-insensitive
    comparison are fresh copies. *)
Theorem diff_writes_only_fresh_objects :
  forall fuel a b o h res h',
  diff_st fuel a b o h = Some (res, h') ->
  (forall l, In l (value_locs a ++ value_locs b) -> (l < next h)%nat) ->
  exists w, written h' = w ++ written h /\
    (forall l, In l w -> (next h <= l)%nat) /\
    (forall l, In l (value_locs a ++ value_locs b) -> ~ In l w) /\
    (forall l, (l < next h)%nat -> cell_lookup (cells h') l = cell_lookup (cells h) l).
Proof.
  intros fuel a b o h res h' H Hin.
  destruct (internalDiff_st_ext fuel _ _ _ _ _ _ H) as (_ & (w & W & F) & C).
  exists w; split; [exact W|split; [|split]].
  - intros l Hl; destruct (F l Hl) as [[]|]; assumption.
  - intros l Hl Hw; specialize (Hin l Hl); destruct (F l Hw) as [[]|]; lia.
  - intros l Hl; apply C; [exact Hl | intros []].
Qed.

(** ** The comparison of primitive values *)

Lemma bool_eqb_sym x y : Bool.eqb x y = Bool.eqb y x.
Proof. destruct x, y; reflexivity. Qed.

Lemma num_eqb_sym n m : num_eqb n m = num_eqb m n.
Proof.
  destruct n as [|s1|p], m as [|s2|q]; cbn; try reflexivity.
  - apply bool_eqb_sym.
  - destruct (Qeq_bool p q) eqn:E1, (Qeq_bool q p) eqn:E2; try reflexivity.
    + apply Qeq_bool_iff in E1. apply Qeq_sym, Qeq_bool_iff in E1. congruence.
    + apply Qeq_bool_iff in E2. apply Qeq_sym, Qeq_bool_iff in E2. congruence.
Qed.

Lemma strict_eq_sym a b : strict_eq a b = strict_eq b a.
Proof.
  destruct a, b; cbn; try reflexivity;
    try apply bool_eqb_sym; try apply num_eqb_sym; try apply Nat.eqb_sym.
  apply String.eqb_sym.
Qed.

Lemma coerceValues_sym a b : coerceValues a b = coerceValues b a.
Proof.
  unfold coerceValues.
  rewrite (andb_comm (is_nullish a)), (orb_comm (is_nullish a)).
  destruct (is_nullish b && is_nullish a); [reflexivity|].
  destruct (is_nullish b || is_nullish a); [reflexivity|].
  destruct a, b; cbn -[num_eqb bool_to_number strict_eq]; try reflexivity;
    try apply strict_eq_sym;
    repeat match goal with
    | |- context [if ?c then _ else _] => destruct c
    end; cbn -[num_eqb bool_to_number]; try reflexivity;
    try apply num_eqb_sym; try apply bool_eqb_sym.
Qed.

(** [comparePrimitives] does not depend on the order of its operands. *)
Theorem comparePrimitives_sym a b coerce :
  comparePrimitives a b coerce = comparePrimitives b a coerce.
Proof.
  unfold comparePrimitives. rewrite strict_eq_sym, coerceValues_sym. reflexivity.
Qed.

(** With coercion, [null] and [undefined] equal each other and nothing else. *)
Theorem comparePrimitives_nullish a b :
  is_nullish a = true -> comparePrimitives a b true = is_nullish b.
Proof. destruct a, b; cbn; congruence. Qed.

(** A boolean equals a string, with coercion, exactly when the lower-cased
    string is the boolean's name. *)
Theorem comparePrimitives_boolean_string x s :
  comparePrimitives (VBool x) (VStr s) true
  = (toLowerCase s =? (if x then "true" else "false")).
Proof.
  unfold comparePrimitives, coerceValues; cbn -[toLowerCase String.eqb].
  destruct (toLowerCase s =? "true") eqn:Et.
  - apply String.eqb_eq in Et. rewrite Et. destruct x; reflexivity.
  - destruct (toLowerCase s =? "false") eqn:Ef; cbn.
    + apply String.eqb_eq in Ef. rewrite Ef. destruct x; reflexivity.
    + destruct x; [exact (eq_sym Et)|exact (eq_sym Ef)].
Qed.

(** A number equals a boolean, with coercion, exactly when it is [1] for
    [true] and [0] for [false]. *)
Theorem comparePrimitives_number_boolean n x :
  comparePrimitives (VNum n) (VBool x) true = true
  <-> exists q, n = Fin q /\ (q == if x then 1 else 0)%Q.
Proof.
  unfold comparePrimitives, coerceValues; cbn -[num_eqb].
  destruct n as [|s|q]; cbn.
  - split; [discriminate|intros (q & E & _); discriminate].
  - split; [discriminate|intros (q & E & _); discriminate].
  - rewrite Qeq_bool_iff. split.
    + intros H. exists q. split; [reflexivity|destruct x; exact H].
    + intros (q' & E & H). injection E as <-. destruct x; exact H.
Qed.

(** An array, a plain object or another non-Date object equals only itself:
    coercion never applies to it. *)
Theorem comparePrimitives_reference a b coerce l :
  ref_of a = Some l -> (forall l' t, a <> VDate l' t) ->
  comparePrimitives a b coerce = true <-> ref_of b = Some l.
Proof.
  intros Ha Hd.
  destruct a as [| | | | |l' t|l'|l' xs|l' fs]; cbn in Ha; try discriminate;
    [exfalso; exact (Hd l' t eq_refl)| | |]; injection Ha as ->;
    unfold comparePrimitives, coerceValues;
    destruct b as [| | | | |l2 t2|l2|l2 xs2|l2 fs2]; destruct coerce; cbn -[Nat.eqb];
    try destruct (Nat.eqb_spec l l2); split; intros; congruence.
Qed.

(** A Date equals, even with coercion, only itself or a string. *)
Theorem comparePrimitives_date l t b coerce :
  comparePrimitives (VDate l t) b coerce = true ->
  (exists s, b = VStr s) \/ ref_of b = Some l.
Proof.
  unfold comparePrimitives, coerceValues.
  destruct b as [| | | |s|l2 t2|l2|l2 xs2|l2 fs2]; destruct coerce; cbn -[Nat.eqb];
    try destruct (Nat.eqb_spec l l2); intros H; try discriminate; eauto; right; congruence.
Qed.

(** [canCoerceToBoolean] accepts exactly the strings that some boolean
    equals with coercion. *)
Theorem canCoerceToBoolean_compare s :
  canCoerceToBoolean (VStr s) = true
  <-> exists x, comparePrimitives (VBool x) (VStr s) true = true.
Proof.
  unfold canCoerceToBoolean. split.
  - intros H. apply orb_true_iff in H as [H|H].
    + exists true. rewrite comparePrimitives_boolean_string. exact H.
    + exists false. rewrite comparePrimitives_boolean_string. exact H.
  - intros (x & H). rewrite comparePrimitives_boolean_string in H.
    apply orb_true_iff. destruct x; [left|right]; exact H.
Qed.

(** [canCoerceToDate] accepts exactly the strings that some Date equals
    with coercion. *)
Theorem canCoerceToDate_compare s :
  canCoerceToDate (VStr s) = true
  <-> exists l t, comparePrimitives (VDate l t) (VStr s) true = true.
Proof.
  unfold comparePrimitives, coerceValues; cbn -[num_eqb]. split.
  - intros H. exists 0%nat, (Date_parse s). rewrite H.
    apply num_eqb_refl. destruct (isNaN (Date_parse s)); [discriminate|reflexivity].
  - intros (l & t & H). destruct (negb (isNaN (Date_parse s))); [reflexivity|exact H].
Qed.

(** [canCoerceToNumber] accepts exactly the strings that some finite
    number equals with coercion. *)
Theorem canCoerceToNumber_compare s :
  canCoerceToNumber (VStr s) = true
  <-> exists q, comparePrimitives (VNum (Fin q)) (VStr s) true = true.
Proof.
  unfold comparePrimitives, coerceValues; cbn -[num_eqb].
  destruct (Number_of_string s) as [|neg|q]; cbn.
  - split; [discriminate|intros (q & H); exact H].
  - split; [discriminate|intros (q & H); exact H].
  - split; [intros _; exists q; apply Qeq_bool_refl|reflexivity].
Qed.

(** A string that an infinite number equals with coercion is one that
    [canCoerceToNumber] rejects. *)
Theorem infinity_string_not_coercible neg s :
  comparePrimitives (VNum (Infinity neg)) (VStr s) true = true ->
  canCoerceToNumber (VStr s) = false.
Proof.
  unfold comparePrimitives, coerceValues; cbn -[num_eqb].
  destruct (Number_of_string s) as [|neg'|q]; cbn; congruence.
Qed.

(** ** [getNestedValue] *)

Lemma getNestedValue_undefined p : getNestedValue VUndefined p = VUndefined.
Proof. destruct p; reflexivity. Qed.

(** Reading along [p ++ q] is reading along [p], then along [q]. *)
Theorem getNestedValue_app v p q :
  getNestedValue v (p ++ q) = getNestedValue (getNestedValue v p) q.
Proof.
  revert v. induction p as [|k p IH]; intros v; [reflexivity|].
  cbn [app getNestedValue].
  destruct (is_nullish v || negb (jstype_eqb (typeof v) TObject)).
  - symmetry. apply getNestedValue_undefined.
  - apply IH.
Qed.

(** ** [setNestedValue] *)















(** [NaN] equals nothing, not even with coercion. *)
Theorem comparePrimitives_NaN b coerce : comparePrimitives (VNum NaN) b coerce = false.
Proof.
  unfold comparePrimitives, coerceValues.
  destruct b; destruct coerce; cbn; try reflexivity;
    repeat (match goal with |- context [match ?x with _ => _ end] => destruct x end;
            cbn; try reflexivity).
Qed.

(** ** Array indices *)



(** ** Ignore patterns *)

Lemma glob_star s : glob_match "*" s = no_line_terminator s.
Proof.
  induction s as [|c s IH]; [reflexivity|].
  cbn in IH |- *. rewrite IH. reflexivity.
Qed.

Lemma glob_literal_star pre p :
  includes_char "*" pre = false ->
  glob_match (pre ++ "*") p = true
  <-> exists rest, p = (pre ++ rest)%string /\ no_line_terminator rest = true.
Proof.
  revert p. induction pre as [|c pre IH]; intros p Hpre.
  - cbn [append]. rewrite glob_star. split; [eauto|intros (rest & -> & H); exact H].
  - cbn [includes_char] in Hpre. apply orb_false_iff in Hpre as [Hc Hpre].
    cbn [append glob_match]. rewrite Ascii.eqb_sym, Hc.
    destruct p as [|c' p].
    + split; [discriminate|intros (rest & H & _); discriminate H].
    + rewrite andb_true_iff, IH by exact Hpre. split.
      * intros [Hcc (rest & -> & H)]. apply Ascii.eqb_eq in Hcc as ->. eauto.
      * intros (rest & H & Hr). injection H as -> ->.
        split; [apply Ascii.eqb_refl|eauto].
Qed.

(** An ignore pattern made of a literal prefix and a final [*] ignores
    exactly the paths that start with the prefix and continue with no line
    break. *)
Theorem ignore_prefix_star pre p :
  includes_char "*" pre = false ->
  shouldIgnoreProperty p (Some [(pre ++ "*")%string]) = true
  <-> exists rest, p = (pre ++ rest)%string /\ no_line_terminator rest = true.
Proof.
  intros Hpre. rewrite <- glob_literal_star by exact Hpre.
  cbn [shouldIgnoreProperty existsb]. rewrite orb_false_r. unfold matches_ignore_path.
  assert (Hs : includes_char "*" (pre ++ "*") = true).
  { clear Hpre. induction pre as [|c pre IH]; cbn; [reflexivity|rewrite IH, orb_true_r; reflexivity]. }
  rewrite Hs. destruct (String.eqb_spec (pre ++ "*") p) as [<-|]; [|reflexivity].
  split; [intros _|reflexivity].
  apply glob_literal_star; [exact Hpre|]. exists "*"%string. split; reflexivity.
Qed.

(** Ignore paths with neither [.] nor [*] match only the identical path:
    a plain key name does not ignore that key at a deeper level. *)
Theorem ignore_plain_names p ips :
  forallb (fun ip => negb (includes_char "*" ip) && negb (includes_char "." ip)) ips = true ->
  shouldIgnoreProperty p (Some ips) = existsb (String.eqb p) ips.
Proof.
  intros H. assert (Hm : existsb (matches_ignore_path p) ips = existsb (String.eqb p) ips).
  { induction ips as [|ip ips IH]; [reflexivity|].
    cbn in H |- *. apply andb_true_iff in H as [Hip H].
    apply andb_true_iff in Hip as [Hs Hd]. apply negb_true_iff in Hs, Hd.
    rewrite IH by exact H. unfold matches_ignore_path. rewrite Hs, Hd.
    rewrite (String.eqb_sym ip p). destruct (p =? ip); reflexivity. }
  destruct ips; [reflexivity|exact Hm].
Qed.

Lemma prefix_append s t : String.prefix s (s ++ t) = true.
Proof.
  induction s as [|c s IH]; cbn; [destruct t; reflexivity|].
  destruct (ascii_dec c c) as [_|[]]; [exact IH|reflexivity].
Qed.

(** A dotted ignore path without [*] ignores every path below it. *)
Theorem ignore_dotted_below ip ips rest :
  In ip ips -> includes_char "*" ip = false -> includes_char "." ip = true ->
  shouldIgnoreProperty (ip ++ "." ++ rest) (Some ips) = true.
Proof.
  intros Hin Hs Hd. destruct ips as [|ip0 ips]; [destruct Hin|].
  apply existsb_exists. exists ip. split; [exact Hin|].
  unfold matches_ignore_path. rewrite Hs, Hd.
  destruct (ip =? _); [reflexivity|].
  rewrite str_append_assoc. apply prefix_append.
Qed.


(** ** Whole-object ignores and array lengths at the top level *)

Lemma deletions_loop_all_ignored c fa fb d :
  forallb (fun kv => shouldIgnoreProperty (currentPath c (fst kv)) (ignoreProperties (options c))) fa = true ->
  deletions_loop c fa fb d = d.
Proof.
  revert d. induction fa as [|[k v] fa IH]; intros d H; [reflexivity|].
  cbn in H |- *. apply andb_true_iff in H as [Hk H]. rewrite Hk. exact (IH d H).
Qed.

Lemma keysB_loop_all_ignored f c fa fb r :
  forallb (fun kv => shouldIgnoreProperty (currentPath c (fst kv)) (ignoreProperties (options c))) fb = true ->
  keysB_loop f c fa fb r = Ok r.
Proof.
  revert r. induction fb as [|[k v] fb IH]; intros r H; [reflexivity|].
  cbn in H |- *. apply andb_true_iff in H as [Hk H]. unfold keyB_step. rewrite Hk.
  exact (IH r H).
Qed.

Lemma star_ignores ips k :
  In "*"%string ips -> no_line_terminator k = true -> shouldIgnoreProperty k (Some ips) = true.
Proof.
  intros Hin Hk. destruct ips as [|ip ips]; [destruct Hin|].
  apply existsb_exists. exists "*"%string. split; [exact Hin|].
  unfold matches_ignore_path. destruct (_ =? k); [reflexivity|].
  cbn [includes_char Ascii.eqb]. rewrite glob_star. exact Hk.
Qed.

(** With ["*"] among the ignore patterns, two plain objects whose keys
    hold no line break have an empty diff, whatever their values. *)
Theorem diff_ignore_star l1 fa l2 fb o ips :
  opt_ignoreProperties o = Some (Some ips) -> In "*"%string ips ->
  forallb (fun kv => no_line_terminator (fst kv)) (fa ++ fb) = true ->
  diff (VObj l1 fa) (VObj l2 fb) o = Ok empty_result.
Proof.
  intros Ho Hin Hk. rewrite forallb_app in Hk. apply andb_true_iff in Hk as [Ha Hb].
  unfold diff. cbn [internalDiff is_nullish andb orb typeof jstype_eqb negb].
  unfold compareObjects.
  set (c := mkCtx [] 0 (mergeOptions o)).
  assert (Hign : forall kvs : list (string * value), forallb (fun kv => no_line_terminator (fst kv)) kvs = true ->
    forallb (fun kv => shouldIgnoreProperty (currentPath c (fst kv)) (ignoreProperties (options c))) kvs = true).
  { intros kvs H. apply forallb_forall. intros kv Hkv.
    eapply forallb_forall in H; [|exact Hkv].
    cbn. rewrite Ho. exact (star_ignores ips _ Hin H). }
  rewrite deletions_loop_all_ignored by exact (Hign fa Ha).
  rewrite keysB_loop_all_ignored by exact (Hign fb Hb).
  reflexivity.
Qed.

(** Two arrays of different lengths are one update, whatever the options. *)
Theorem diff_arrays_length l1 xs l2 ys o :
  List.length xs <> List.length ys ->
  diff (VArr l1 xs) (VArr l2 ys) o
  = Ok (mkResult (OMap []) (OMap []) (OFromTo (VArr l1 xs) (VArr l2 ys))).
Proof.
  intros Hl. unfold diff. cbn [internalDiff is_nullish andb orb typeof jstype_eqb negb].
  unfold compareArrays. apply Nat.eqb_neq in Hl. rewrite Hl. reflexivity.
Qed.

(** ** Swapping the arguments of [diff] *)

Lemma keyB_step_scalar c fx k vb r0 :
  keyB_step internalDiff c fx k vb (mkMaps [] [] []) = Ok r0 ->
  (forall w, lookup (m_additions r0) k = Some (OVal w) <->
     shouldIgnoreProperty (currentPath c k) (ignoreProperties (options c)) = false /\
     lookup fx k = None /\ w = vb) /\
  (forall w, lookup (m_deletions r0) k <> Some (OVal w)).
Proof.
  unfold keyB_step.
  destruct (shouldIgnoreProperty _ _) eqn:Hi.
  - intros H. injection H as <-. cbn. split; [intros w; split; [discriminate|intros (? & _); discriminate]|discriminate].
  - destruct (lookup fx k) as [va|] eqn:Ek.
    + unfold compare_values_step.
      destruct (below_maxDepth c && isPlainObject va && isPlainObject vb) eqn:Hb.
      * apply andb_true_iff in Hb as [Hb Hpb]. apply andb_true_iff in Hb as [_ Hpa].
        destruct va as [| |?|?|?|? ?|?|? ?|la fa']; try discriminate Hpa.
        destruct vb as [| |?|?|?|? ?|?|? ?|lb fb']; try discriminate Hpb.
        rewrite internalDiff_objects.
        destruct (compareObjects internalDiff fa' fb' _) as [nr|] eqn:En; [|discriminate].
        destruct (compareObjects_shape _ _ _ _ _ En) as (ma & md & mu & ->).
        cbn. intros H. injection H as <-.
        split; intros w; [split; [|intros (_ & ? & _); discriminate]|];
          destruct ma, md; cbn; rewrite ?String.eqb_refl; intros Hc; discriminate Hc.
      * destruct va, vb; cbn -[comparePrimitives compareArrays];
          try (destruct (compareArrays _ _ _ _) as [[]|]; cbn);
          try (destruct (comparePrimitives _ _ _));
          intros H; try discriminate H; injection H as <-; cbn;
          (split; [intros w; split; [discriminate|intros (_ & ? & _); discriminate]|discriminate]).
    + intros H. injection H as <-. cbn. rewrite String.eqb_refl. split; [|discriminate].
      intros w. split.
      * intros Hw. injection Hw as ->. auto.
      * intros (_ & _ & ->). reflexivity.
Qed.

(** What [diff(a, b)] adds under a key of two plain objects as a value of
    [b] is what [diff(b, a)] deletes there, and the other way round. *)
Theorem diff_swap_scalar la fa lb fb o r1 r2 k v :
  NoDup (map fst fa) -> NoDup (map fst fb) ->
  diff (VObj la fa) (VObj lb fb) o = Ok r1 ->
  diff (VObj lb fb) (VObj la fa) o = Ok r2 ->
  out_lookup (additions r1) k = Some (OVal v) <-> out_lookup (deletions r2) k = Some (OVal v).
Proof.
  intros Hfa Hfb H1 H2. unfold diff in H1, H2. rewrite internalDiff_objects in H1, H2.
  set (c := mkCtx [] 0 (mergeOptions o)) in H1, H2.
  set (ign := shouldIgnoreProperty (currentPath c k) (ignoreProperties (options c))).
  transitivity (ign = false /\ lookup fa k = None /\ lookup fb k = Some v).
  - destruct (in_dec String.string_dec k (map fst fb)) as [Hin|Hnin].
    + apply in_map_iff in Hin as [[k' vb] [Hk Hin]]. cbn in Hk. subst k'.
      destruct (proj1 (compareObjects_at _ _ _ _ _ k Hfa Hfb H1) vb Hin) as [e [He Hat]].
      destruct (keyB_step_scalar c fa k vb _ (He (mkMaps [] [] []))) as [Ha _].
      unfold res_at, maps_at in Hat. injection Hat as Hat _ _. rewrite Hat, Ha.
      rewrite (In_lookup _ _ _ Hfb Hin). split.
      * intros (? & ? & ->). auto.
      * intros (? & ? & Hv). injection Hv as ->. auto.
    + pose proof (proj2 (compareObjects_at _ _ _ _ _ k Hfa Hfb H1) Hnin) as Hat.
      unfold res_at in Hat. injection Hat as Hat _ _. rewrite Hat.
      apply lookup_None_In in Hnin. rewrite Hnin.
      split; [discriminate|intros (_ & _ & ?); discriminate].
  - destruct (in_dec String.string_dec k (map fst fa)) as [Hin|Hnin].
    + apply in_map_iff in Hin as [[k' va] [Hk Hin]]. cbn in Hk. subst k'.
      destruct (proj1 (compareObjects_at _ _ _ _ _ k Hfb Hfa H2) va Hin) as [e [He Hat]].
      destruct (keyB_step_scalar c fb k va _ (He (mkMaps [] [] []))) as [_ Hd].
      unfold res_at, maps_at in Hat. injection Hat as _ Hat _. rewrite Hat.
      rewrite (In_lookup _ _ _ Hfa Hin). split; [intros (_ & ? & _); discriminate|].
      intros Hv. exfalso. exact (Hd v Hv).
    + pose proof (proj2 (compareObjects_at _ _ _ _ _ k Hfb Hfa H2) Hnin) as Hat.
      unfold res_at in Hat. injection Hat as _ Hat _. rewrite Hat.
      apply lookup_None_In in Hnin. rewrite Hnin.
      unfold ign, c. cbn [options mergeOptions ignoreProperties DEFAULT_OPTIONS].
      destruct (lookup fb k) as [vb|]; [|split; [intros (_ & _ & ?)|]; discriminate].
      destruct (shouldIgnoreProperty _ _); split.
      * intros (? & _); discriminate.
      * discriminate.
      * intros (_ & _ & Hv). injection Hv as ->. reflexivity.
      * intros Hv. injection Hv as ->. auto.
Qed.

(** ** Arrays of primitives under the default options *)

Lemma compare_in_order_prims c i xs ys :
  forallb non_object xs = true -> forallb non_object ys = true ->
  List.length xs = List.length ys ->
  exists b, compare_in_order internalDiff c i xs ys = Ok b /\
    (b = true <-> Forall2 (fun x y => comparePrimitives x y (coercion c) = true) xs ys).
Proof.
  revert i ys. induction xs as [|x xs IH]; intros i ys Hx Hy Hl.
  - destruct ys; [|discriminate Hl]. exists true. split; [reflexivity|].
    split; [constructor|reflexivity].
  - destruct ys as [|y ys]; [discriminate Hl|]. cbn in Hx, Hy, Hl.
    apply andb_true_iff in Hx as [Hx Hxs]. apply andb_true_iff in Hy as [Hy Hys].
    cbn [compare_in_order]. unfold non_object_or_array. rewrite Hx, Hy. cbn [orb andb].
    destruct (comparePrimitives x y (coercion c)) eqn:Hc.
    + destruct (IH (S i) ys Hxs Hys (eq_add_S _ _ Hl)) as [b [Hb Hiff]].
      exists b. split; [exact Hb|]. rewrite Hiff.
      split; [intros H; constructor; assumption|intros H; inversion H; assumption].
    + exists false. split; [reflexivity|].
      split; [discriminate|intros H; inversion H; congruence].
Qed.

(** Under the default options, two arrays of primitives have an empty diff
    exactly when they are equal element by element, in order, with type
    coercion. *)
Theorem diff_primitive_arrays_in_order l1 xs l2 ys :
  forallb non_object xs = true -> forallb non_object ys = true ->
  diff (VArr l1 xs) (VArr l2 ys) no_options = Ok empty_result
  <-> Forall2 (fun x y => comparePrimitives x y true = true) xs ys.
Proof.
  intros Hx Hy. unfold diff. cbn [internalDiff is_nullish andb orb typeof jstype_eqb negb].
  unfold compareArrays.
  destruct (Nat.eqb_spec (List.length xs) (List.length ys)) as [Hl|Hl]; cbn [negb].
  - destruct (Nat.eqb_spec (List.length xs) 0) as [H0|H0].
    + destruct xs; [|discriminate H0]. destruct ys; [|discriminate Hl].
      split; [constructor|reflexivity].
    + cbn [options mergeOptions spread arrayOrderMatters DEFAULT_OPTIONS truthy negb andb].
      destruct (compare_in_order_prims (mkCtx [] 0 (mergeOptions no_options)) 0 xs ys Hx Hy Hl)
        as [b [Hb Hiff]].
      rewrite Hb. cbn in Hiff |- *. rewrite <- Hiff.
      destruct b; split; (reflexivity || discriminate || auto).
  - split; [discriminate|intros H; exact (False_ind _ (Hl (Forall2_length H)))].
Qed.

End Proofs.

(** * Witnesses *)

Lemma top_level_no_coercion_witness :
  js_diff (int 30) (VStr "30") no_options =
    Ok (mkResult (OMap []) (OMap []) (OFromTo (int 30) (VStr "30"))) /\
  js_diff (obj 1 [("age", int 30)]) (obj 2 [("age", VStr "30")]) no_options =
    Ok (mkResult (OMap []) (OMap [])
          (OMap (if @comparePrimitives js_runtime (int 30) (VStr "30")
                      (truthy (enableTypeCoercion (mergeOptions no_options)))
                 then [] else [("age", OFromTo (int 30) (VStr "30"))]))).
Proof.
  split.
  - apply (proj1 (@top_level_no_coercion js_runtime)); reflexivity.
  - apply (proj2 (@top_level_no_coercion js_runtime)); reflexivity.
Defined.

Definition maxDepth0 : DiffOptions := mkDiffOptions None None None (Some (Some (Fin 0))).

Lemma depth_boundary_opaque_witness :
  exists r,
    @internalDiff js_runtime
      (obj 1 [("u", obj 3 [("a", int 1)])]) (obj 2 [("u", obj 4 [("a", int 1)])])
      (mkCtx [] 0 (mergeOptions maxDepth0)) = Ok r /\
    out_lookup (updates r) "u" =
      Some (OFromTo (obj 3 [("a", int 1)]) (obj 4 [("a", int 1)])).
Proof.
  apply (@depth_boundary_opaque js_runtime); try reflexivity.
  - repeat constructor; simpl; tauto.
  - repeat constructor; simpl; tauto.
  - discriminate.
Defined.

Lemma key_partition_witness :
  exists r,
    @internalDiff js_runtime
      (obj 1 [("u", obj 3 [("a", int 1); ("b", int 2)])])
      (obj 2 [("u", obj 4 [("a", int 5); ("c", int 2)])])
      (mkCtx [] 0 (mergeOptions no_options)) = Ok r /\
    n_present (res_at r "u") = 3%nat /\ (n_scalar (res_at r "u") <= 1)%nat.
Proof.
  eexists; split; [reflexivity|]; split; [reflexivity|].
  eapply (proj1 (@key_partition js_runtime 1 2
                   [("u", obj 3 [("a", int 1); ("b", int 2)])]
                   [("u", obj 4 [("a", int 5); ("c", int 2)])]
                   (mkCtx [] 0 (mergeOptions no_options)) _ "u" _ _ _)).
  Unshelve.
  all: first [reflexivity | repeat constructor; simpl; tauto].
Defined.

Definition ignore_u_id : DiffOptions :=
  mkDiffOptions (Some (Some ["u._id"])) None None None.

(** C3 fails as stated: with [ignoreProperties = ["u._id"]],
    [diff({}, {u: {_id: 1}})] returns [additions = {u: {_id: 1}}], in which
    the ignored path [u._id] appears. *)
Lemma ignore_completeness_counterexample :
  exists r,
    js_diff (obj 1 []) (obj 2 [("u", obj 3 [("_id", int 1)])]) ignore_u_id = Ok r /\
    shouldIgnoreProperty (String.concat "." ["u"; "_id"])
      (ignoreProperties (mergeOptions ignore_u_id)) = true /\
    result_path (additions r) ["u"; "_id"].
Proof.
  eexists; split; [reflexivity|]; split; [reflexivity|].
  simpl; eexists; split; [reflexivity|]; right.
  simpl; eexists; split; [reflexivity|]; left; reflexivity.
Qed.

Lemma ignored_paths_not_in_result_maps_witness :
  exists r,
    js_diff (obj 1 [("u", obj 3 [("_id", int 1); ("n", int 1)])])
            (obj 2 [("u", obj 4 [("_id", int 2); ("n", int 2)])]) ignore_u_id = Ok r /\
    map_path (updates r) ["u"; "n"] /\
    ~ map_path (additions r) ["u"; "_id"] /\ ~ map_path (deletions r) ["u"; "_id"] /\
    ~ map_path (updates r) ["u"; "_id"].
Proof.
  eexists; split; [reflexivity|]; split.
  - simpl; eexists; split; [reflexivity|]; right.
    simpl; eexists; split; [reflexivity|]; left; reflexivity.
  - apply (@ignored_paths_not_in_result_maps js_runtime
             (obj 1 [("u", obj 3 [("_id", int 1); ("n", int 1)])])
             (obj 2 [("u", obj 4 [("_id", int 2); ("n", int 2)])]) ignore_u_id);
      reflexivity.
Defined.

(** [n] nested objects [{a: ...}] around [v]. *)
Fixpoint nest (n : nat) (v : value) : value :=
  match n with
  | O => v
  | S n' => obj (100 + n') [("a", nest n' v)]
  end.

(** C1 fails as stated: [diff(NaN, NaN)] reports an update, and so does
    [diff(v, v)] for an array holding an object inside eleven nested
    objects, where the array is compared at depth 10 = [maxDepth]. *)
Lemma identity_counterexample :
  js_diff (VNum NaN) (VNum NaN) no_options =
    Ok (mkResult (OMap []) (OMap []) (OFromTo (VNum NaN) (VNum NaN))) /\
  exists r,
    js_diff (nest 11 (VArr 1 [obj 2 []])) (nest 11 (VArr 1 [obj 2 []])) no_options = Ok r /\
    r <> empty_result.
Proof.
  split; [reflexivity|].
  eexists; split; [vm_compute; reflexivity|].
  vm_compute; discriminate.
Qed.

Lemma diff_identity_witness :
  self_equal_at 0 (nest 9 (VArr 1 [obj 2 [("x", int 1)]; VStr "s"; VNull])) = true /\
  js_diff (nest 9 (VArr 1 [obj 2 [("x", int 1)]; VStr "s"; VNull]))
          (nest 9 (VArr 1 [obj 2 [("x", int 1)]; VStr "s"; VNull])) no_options
  = Ok empty_result.
Proof.
  split; [reflexivity|].
  apply (@diff_identity js_runtime); reflexivity.
Defined.

Definition arr_witness : list value :=
  [int 3; VStr "3"; VBool true; VStr "true"; VNull; VUndefined; int 10; VStr "b"].

(** C6 fails as stated: [null] and ["null"] have the same string conversion,
    so the stable default sort keeps them in their input order and the two
    permutations compare [null] with ["null"]; and [NaN] never equals itself. *)
Lemma unordered_arrays_counterexample :
  Permutation [VNull; VStr "null"] [VStr "null"; VNull] /\
  js_diff (obj 1 [("x", VArr 3 [VNull; VStr "null"])])
          (obj 2 [("x", VArr 4 [VStr "null"; VNull])]) unordered_options
  = Ok (mkResult (OMap []) (OMap [])
          (OMap [("x", OFromTo (VArr 3 [VNull; VStr "null"]) (VArr 4 [VStr "null"; VNull]))])) /\
  js_diff (obj 1 [("x", VArr 3 [VNum NaN])]) (obj 2 [("x", VArr 4 [VNum NaN])])
          unordered_options
  = Ok (mkResult (OMap []) (OMap [])
          (OMap [("x", OFromTo (VArr 3 [VNum NaN]) (VArr 4 [VNum NaN]))])).
Proof.
  split; [apply perm_swap | split; vm_compute; reflexivity].
Qed.

Lemma unordered_primitive_arrays_witness :
  js_diff (obj 1 [("x", VArr 3 arr_witness)]) (obj 2 [("x", VArr 4 (rev arr_witness))])
          unordered_options = Ok empty_result.
Proof.
  apply (@unordered_primitive_arrays js_runtime).
  - apply Permutation_rev.
  - reflexivity.
  - vm_compute; intros H; repeat (destruct H as [H|H]; [discriminate|]); exact H.
  - intros [_ H]; vm_compute in H; repeat (destruct H as [H|H]; [discriminate|]); exact H.
  - intros n Hn; vm_compute in Hn;
      repeat (destruct Hn as [Hn|Hn]; [first [discriminate | injection Hn as <-; reflexivity]|]);
      contradiction.
  - reflexivity.
  - reflexivity.
  - reflexivity.
Defined.

Definition store_input_a : value :=
  obj 1 [("a", VArr 2 [int 2; int 1]); ("b", obj 3 [("c", VNull)]); ("d", VNull)].
Definition store_input_b : value :=
  obj 4 [("a", VArr 5 [int 1; int 2]); ("b", obj 6 [("c", VBool true)]); ("e", VNull)].

Lemma diff_writes_only_fresh_objects_witness :
  match @diff_st js_runtime 20 store_input_a store_input_b unordered_options (mkHeap 100 [] []) with
  | Some (res, h') =>
      exists w, written h' = w ++ [] /\
        (forall l, In l w -> (100 <= l)%nat) /\
        (forall l, In l (value_locs store_input_a ++ value_locs store_input_b) -> ~ In l w) /\
        (forall l, (l < 100)%nat -> cell_lookup (cells h') l = cell_lookup [] l)
  | None => False
  end.
Proof.
  destruct (@diff_st js_runtime 20 store_input_a store_input_b unordered_options
              (mkHeap 100 [] [])) as [[res h']|] eqn:E.
  - apply (@diff_writes_only_fresh_objects js_runtime 20 store_input_a store_input_b
             unordered_options (mkHeap 100 [] []) res h' E).
    intros l Hl; vm_compute in Hl; simpl;
      repeat (destruct Hl as [<-|Hl]; [lia|]); contradiction.
  - vm_compute in E; discriminate.
Defined.

Lemma comparePrimitives_nullish_witness :
  is_nullish VNull = true /\
  @comparePrimitives js_runtime VNull VUndefined true = is_nullish VUndefined.
Proof. split; [reflexivity|]. apply (@comparePrimitives_nullish js_runtime); reflexivity. Defined.

Lemma comparePrimitives_reference_witness :
  ref_of (VArr 1 [int 1]) = Some 1%nat /\ (forall l t, VArr 1 [int 1] <> VDate l t) /\
  (@comparePrimitives js_runtime (VArr 1 [int 1]) (VObj 1 []) true = true
   <-> ref_of (VObj 1 []) = Some 1%nat).
Proof.
  assert (Hd : forall l t, VArr 1 [int 1] <> VDate l t) by (intros l t H; discriminate H).
  split; [reflexivity|]. split; [exact Hd|].
  apply (@comparePrimitives_reference js_runtime); [reflexivity|exact Hd].
Defined.

Lemma comparePrimitives_date_witness :
  @comparePrimitives js_runtime (VDate 3 (Fin 0)) (VDate 3 (Fin 5)) false = true /\
  ((exists s, VDate 3 (Fin 5) = VStr s) \/ ref_of (VDate 3 (Fin 5)) = Some 3%nat).
Proof.
  split; [reflexivity|]. apply (@comparePrimitives_date js_runtime 3 (Fin 0) _ false).
  reflexivity.
Defined.

Lemma infinity_string_not_coercible_witness :
  @comparePrimitives js_runtime (VNum (Infinity false)) (VStr "Infinity") true = true /\
  @canCoerceToNumber js_runtime (VStr "Infinity") = false.
Proof.
  split; [vm_compute; reflexivity|].
  apply (@infinity_string_not_coercible js_runtime false). vm_compute. reflexivity.
Defined.






Lemma ignore_prefix_star_witness :
  includes_char "*" "user." = false /\
  (shouldIgnoreProperty "user.id" (Some [("user." ++ "*")%string]) = true
   <-> exists rest, "user.id"%string = ("user." ++ rest)%string /\ no_line_terminator rest = true).
Proof. split; [reflexivity|]. apply ignore_prefix_star. reflexivity. Defined.

Lemma ignore_plain_names_witness :
  forallb (fun ip => negb (includes_char "*" ip) && negb (includes_char "." ip)) ["id"; "name"] = true /\
  shouldIgnoreProperty "user.id" (Some ["id"; "name"]) = existsb (String.eqb "user.id") ["id"; "name"].
Proof. split; [reflexivity|]. apply ignore_plain_names. reflexivity. Defined.

Lemma ignore_dotted_below_witness :
  In "user.meta"%string ["user.meta"] /\ includes_char "*" "user.meta" = false /\
  includes_char "." "user.meta" = true /\
  shouldIgnoreProperty ("user.meta" ++ "." ++ "x") (Some ["user.meta"]) = true.
Proof.
  split; [left; reflexivity|]. split; [reflexivity|]. split; [reflexivity|].
  apply ignore_dotted_below; [left|..]; reflexivity.
Defined.

Definition ignore_all : DiffOptions := mkDiffOptions (Some (Some ["*"])) None None None.

Lemma diff_ignore_star_witness :
  opt_ignoreProperties ignore_all = Some (Some ["*"]) /\ In "*"%string ["*"] /\
  forallb (fun kv => no_line_terminator (fst kv))
    ([("a", int 1); ("b", int 2)] ++ [("a", VStr "x"); ("c", VNull)]) = true /\
  js_diff (obj 1 [("a", int 1); ("b", int 2)]) (obj 2 [("a", VStr "x"); ("c", VNull)]) ignore_all
  = Ok empty_result.
Proof.
  split; [reflexivity|]. split; [left; reflexivity|]. split; [reflexivity|].
  apply (@diff_ignore_star js_runtime _ _ _ _ _ ["*"]); [reflexivity|left; reflexivity|reflexivity].
Defined.

Lemma diff_arrays_length_witness :
  List.length [int 1; int 2] <> List.length [int 1] /\
  js_diff (VArr 1 [int 1; int 2]) (VArr 2 [int 1]) unordered_options
  = Ok (mkResult (OMap []) (OMap []) (OFromTo (VArr 1 [int 1; int 2]) (VArr 2 [int 1]))).
Proof.
  assert (Hl : List.length [int 1; int 2] <> List.length [int 1]) by (simpl; lia).
  split; [exact Hl|]. apply (@diff_arrays_length). exact Hl.
Defined.

Lemma diff_swap_scalar_witness :
  exists r1 r2,
    NoDup (map fst [("a", int 1); ("b", int 2)]) /\
    NoDup (map fst [("a", int 5); ("c", VNull)]) /\
    js_diff (obj 1 [("a", int 1); ("b", int 2)]) (obj 2 [("a", int 5); ("c", VNull)])
      no_options = Ok r1 /\
    js_diff (obj 2 [("a", int 5); ("c", VNull)]) (obj 1 [("a", int 1); ("b", int 2)])
      no_options = Ok r2 /\
    (out_lookup (additions r1) "c" = Some (OVal VNull)
     <-> out_lookup (deletions r2) "c" = Some (OVal VNull)).
Proof.
  assert (Ha : NoDup (map fst [("a", int 1); ("b", int 2)]))
    by (repeat constructor; simpl; intuition discriminate).
  assert (Hb : NoDup (map fst [("a", int 5); ("c", VNull)]))
    by (repeat constructor; simpl; intuition discriminate).
  do 2 eexists. split; [exact Ha|]. split; [exact Hb|].
  split; [reflexivity|]. split; [reflexivity|].
  eapply (@diff_swap_scalar js_runtime 1 _ 2 _ no_options); [exact Ha|exact Hb|reflexivity|reflexivity].
Defined.

Lemma diff_primitive_arrays_in_order_witness :
  forallb non_object [int 1; VStr "2"] = true /\ forallb non_object [VStr "1"; int 2] = true /\
  (js_diff (VArr 1 [int 1; VStr "2"]) (VArr 2 [VStr "1"; int 2]) no_options = Ok empty_result
   <-> Forall2 (fun x y => @comparePrimitives js_runtime x y true = true)
         [int 1; VStr "2"] [VStr "1"; int 2]).
Proof.
  split; [reflexivity|]. split; [reflexivity|].
  apply (@diff_primitive_arrays_in_order js_runtime); reflexivity.
Defined.
